(** * send2ereader: the session registry and the upload pipeline of [index.js]

    A shallow embedding of [src/index.js], and what it guarantees.

    - JavaScript strings are sequences of UTF-16 code units ([list N]).
    - The registry [app.context.keys] is a [Map] from key strings to session
      objects.  These are shared mutable objects, so the model keeps them in
      a store indexed by object identity ([heap]) and the registry holds
      identities: the test [ctx.keys.get(key) === info] of the hard-cap
      closure compares identities, and an upload handler that resumes after
      an [await] still holds the object it looked up.
    - Pending timers are a finite map from handles to a deadline and a
      callback; [setTimeout] and [clearTimeout] insert and delete.
    - The file system is the set of paths that exist under [uploads/].
    - What the process cannot decide is an input of the model: the draws of
      [Math.random], the type [FileType.fromFile] sniffs, how a converter
      process ends, and the library functions of [JsLib]. *)

From Stdlib Require Import ZArith NArith List Ascii String Lia Bool.
From stdpp Require Import base option list gmap fin_maps fin_sets.

Open Scope Z_scope.

(** ** JavaScript strings *)

(** A string value: its UTF-16 code units. *)
Abbreviation jsstring := (list N).

(** A literal whose characters are all ASCII. *)
Definition js (s : string) : jsstring :=
  List.map N_of_ascii (list_ascii_of_string s).
Arguments js : simpl never.

(** [a + b] on strings. *)
Notation "a +++ b" := (@app N a b) (at level 60, right associativity).

Fixpoint starts_with (p s : jsstring) : bool :=
  match p, s with
  | [], _ => true
  | _ :: _, [] => false
  | a :: p', b :: s' => N.eqb a b && starts_with p' s'
  end.

(** [s.includes(p)] *)
Fixpoint includes (p s : jsstring) : bool :=
  starts_with p s ||
  match s with
  | [] => false
  | _ :: s' => includes p s'
  end.

(** [arr.includes(x)] on an array of strings. *)
Definition arr_includes (x : jsstring) (arr : list jsstring) : bool :=
  bool_decide (x ∈ arr).

(** WhiteSpace and LineTerminator code units, the ones [trim] strips. *)
Definition is_space (c : N) : bool :=
  ((9 <=? c) && (c <=? 13) || (c =? 32) || (c =? 160) || (c =? 5760)
   || (8192 <=? c) && (c <=? 8202) || (c =? 8232) || (c =? 8233)
   || (c =? 8239) || (c =? 8287) || (c =? 12288) || (c =? 65279))%N.

Fixpoint trim_start (s : jsstring) : jsstring :=
  match s with
  | [] => []
  | c :: s' => if is_space c then trim_start s' else s
  end.

(** [s.trim()] *)
Definition trim (s : jsstring) : jsstring :=
  rev (trim_start (rev (trim_start s))).

(** ASCII case folding of one code unit.  This is what a regular expression
    with the [i] flag (and no [u] flag) compares: its canonicalisation never
    maps a code unit above 127 to one below 128. *)
Definition fold_lower (c : N) : N :=
  if ((65 <=? c) && (c <=? 90))%N then (c + 32)%N else c.
Definition fold_upper (c : N) : N :=
  if ((97 <=? c) && (c <=? 122))%N then (c - 32)%N else c.

(** [s] ends with the ASCII pattern [p], compared as [/p$/i] does
    ([p] is given in lower case). *)
Definition ends_with_ci (p s : jsstring) : bool :=
  bool_decide (List.map fold_lower (skipn (length s - length p) s) = p).

(** [s.replace(/p$/i, r)]: the suffix is replaced when it matches, the string
    is returned unchanged when it does not. *)
Definition replace_suffix_ci (p r s : jsstring) : jsstring :=
  if ends_with_ci p s then firstn (length s - length p) s +++ r else s.

(** ** Library functions

    [String.prototype.toUpperCase] and [toLowerCase] (full Unicode case
    mapping) and the two npm packages the file names are passed through are
    not part of the repository: the development is parametric in them. *)
Class JsLib := {
  toUpperCase : jsstring → jsstring;
  toLowerCase : jsstring → jsstring;
  (** [sanitize-filename] *)
  sanitize : jsstring → jsstring;
  (** [transliteration]'s [transliterate] *)
  transliterate : jsstring → jsstring;
}.

(** The instance used to evaluate the definitions on ASCII inputs: case
    mapping of the letters a-z, and file names the two packages leave as
    they are. *)
Definition ascii_lib : JsLib := {|
  toUpperCase := List.map fold_upper;
  toLowerCase := List.map fold_lower;
  sanitize := λ s, s;
  transliterate := λ s, s;
|}.

(** ** Constants (lines 20-41) *)

Definition expireDelay : Z := 10 * 60.
Definition maxExpireDuration : Z := 1 * 60 * 60.

Definition TYPE_EPUB : jsstring := js "application/epub+zip".
Definition TYPE_MOBI : jsstring := js "application/x-mobipocket-ebook".

Definition allowedTypes : list jsstring :=
  [ TYPE_EPUB; TYPE_MOBI; js "application/pdf";
    js "application/vnd.comicbook+zip"; js "application/vnd.comicbook-rar";
    js "text/html"; js "text/plain"; js "application/zip";
    js "application/x-rar-compressed" ].

Definition allowedExtensions : list jsstring :=
  [ js "epub"; js "mobi"; js "pdf"; js "cbz"; js "cbr"; js "html"; js "txt" ].

Definition keyChars : jsstring := js "23456789ACDEFGHJKLMNPRSTUVWXYZ".
Definition keyLength : nat := 4.

(** ** Number to string and back *)

(** The digits of [n] in base [radix], most significant first.  [fuel]
    bounds the number of digits; [N.size_nat n] is always enough. *)
Fixpoint to_digits (fuel : nat) (radix n : N) : list N :=
  match fuel with
  | O => [(n mod radix)%N]
  | S f =>
      if (n <? radix)%N then [n]
      else to_digits f radix (n / radix)%N ++ [(n mod radix)%N]
  end.

(** The character of a digit: 0-9, then a-z. *)
Definition digit_char (d : N) : N :=
  if (d <? 10)%N then (48 + d)%N else (87 + d)%N.

(** [n.toString(radix)] for a non-negative integer [n]. *)
Definition toString (radix n : N) : jsstring :=
  List.map digit_char (to_digits (N.size_nat n) radix n).

(** [s.padStart(len, "0")] *)
Definition padStart0 (len : nat) (s : jsstring) : jsstring :=
  repeat 48%N (len - length s) +++ s.

(** [parseInt(chr, radix)] on a one-character string; [None] is NaN. *)
Definition parseInt_char (radix c : N) : option N :=
  let d :=
    if ((48 <=? c) && (c <=? 57))%N then Some (c - 48)%N
    else if ((97 <=? c) && (c <=? 122))%N then Some (c - 87)%N
    else if ((65 <=? c) && (c <=? 90))%N then Some (c - 55)%N
    else None in
  match d with
  | Some v => if (v <? radix)%N then Some v else None
  | None => None
  end.

(** [keyChars[i]]; [undefined] (here [None]) outside the string, also for
    NaN. *)
Definition keyChars_at (i : option N) : option N :=
  match i with
  | Some d => nth_error keyChars (N.to_nat d)
  | None => None
  end.

(** [arr.join("")] of an array of one-character strings: [undefined]
    elements contribute nothing. *)
Definition join_chars (l : list (option N)) : jsstring := omap id l.

(** ** Key generator (lines 50-60)

    [rnd] is the value of [Math.floor(Math.random() * choices)]. *)
Definition choices : N := N.of_nat (length keyChars) ^ N.of_nat keyLength.

Definition randomKey (rnd : N) : jsstring :=
  let radix := N.of_nat (length keyChars) in
  join_chars
    (List.map (λ chr, keyChars_at (parseInt_char radix chr))
       (padStart0 keyLength (toString radix rnd))).

(** The character [c] is read back by [parseInt] as a digit that names a
    character of the alphabet. *)
Definition digit_ok (c : N) : bool :=
  match keyChars_at (parseInt_char (N.of_nat (length keyChars)) c) with
  | Some k => bool_decide (k ∈ keyChars)
  | None => false
  end.

(** The number a list of digits denotes (the inverse of [to_digits]). *)
Fixpoint digits_value (radix : N) (acc : N) (ds : list N) : N :=
  match ds with
  | [] => acc
  | d :: ds' => digits_value radix (acc * radix + d)%N ds'
  end.

(** ** Sessions, timers and the process state *)

(** Identity of a session object, and a timer handle. *)
Abbreviation loc := nat.
Abbreviation timer_id := nat.

Inductive conversion := Kindlegen | Kepubify.

(** What [processFile] returns (lines 461-466). *)
Record file_record := {
  fr_name : jsstring;
  fr_path : jsstring;
  fr_uploaded : Z;
  fr_conversion : option conversion;
}.

(** The [info] object of lines 187-194.  [timer] is [None] for [null]. *)
Record info := {
  created : Z;
  agent : jsstring;
  files : list file_record;
  urls : list jsstring;
  timer : option timer_id;
  alive : Z;
}.

(** The two callbacks the program hands to [setTimeout]:
    [setTimeout(removeKey, ..., key)] of line 116, and the closure of lines
    199-201, which captures [key] and the object [info]. *)
Inductive callback :=
  | CbRemoveKey (key : jsstring)
  | CbHardCap (key : jsstring) (o : loc).

(** [keys] is [app.context.keys]; [heap] holds the session objects; [timers]
    the pending timers with their deadlines; [disk] the paths that exist
    under [uploads/]; [now] the clock, in milliseconds. *)
Record state := {
  keys : gmap jsstring loc;
  heap : gmap loc info;
  timers : gmap timer_id (Z * callback);
  next_timer : timer_id;
  next_loc : loc;
  disk : gset jsstring;
  now : Z;
}.

Definition init : state := {|
  keys := ∅; heap := ∅; timers := ∅; next_timer := 0%nat; next_loc := 0%nat;
  disk := ∅; now := 0;
|}.

Definition upd_keys (f : gmap jsstring loc → gmap jsstring loc) (s : state) : state :=
  {| keys := f (keys s); heap := heap s; timers := timers s;
     next_timer := next_timer s; next_loc := next_loc s;
     disk := disk s; now := now s |}.

Definition upd_heap (f : gmap loc info → gmap loc info) (s : state) : state :=
  {| keys := keys s; heap := f (heap s); timers := timers s;
     next_timer := next_timer s; next_loc := next_loc s;
     disk := disk s; now := now s |}.

Definition upd_timers (f : gmap timer_id (Z * callback) → gmap timer_id (Z * callback))
    (s : state) : state :=
  {| keys := keys s; heap := heap s; timers := f (timers s);
     next_timer := next_timer s; next_loc := next_loc s;
     disk := disk s; now := now s |}.

Definition upd_disk (f : gset jsstring → gset jsstring) (s : state) : state :=
  {| keys := keys s; heap := heap s; timers := timers s;
     next_timer := next_timer s; next_loc := next_loc s;
     disk := f (disk s); now := now s |}.

Definition set_now (t : Z) (s : state) : state :=
  {| keys := keys s; heap := heap s; timers := timers s;
     next_timer := next_timer s; next_loc := next_loc s;
     disk := disk s; now := t |}.

Definition set_files (l : list file_record) (i : info) : info :=
  {| created := created i; agent := agent i; files := l; urls := urls i;
     timer := timer i; alive := alive i |}.

Definition set_urls (l : list jsstring) (i : info) : info :=
  {| created := created i; agent := agent i; files := files i; urls := l;
     timer := timer i; alive := alive i |}.

(** [info.timer = t; info.alive = new Date()] *)
Definition set_timer_alive (t : timer_id) (a : Z) (i : info) : info :=
  {| created := created i; agent := agent i; files := files i; urls := urls i;
     timer := Some t; alive := a |}.

(** [setTimeout(cb, delay)]: a fresh handle, due [delay] ms from now. *)
Definition setTimeout (cb : callback) (delay : Z) (s : state) : timer_id * state :=
  (next_timer s,
   {| keys := keys s; heap := heap s;
      timers := <[next_timer s := (now s + delay, cb)]> (timers s);
      next_timer := S (next_timer s); next_loc := next_loc s;
      disk := disk s; now := now s |}).

(** [clearTimeout(t)]: nothing happens for [null] or a timer that is no
    longer pending. *)
Definition clearTimeout (t : option timer_id) (s : state) : state :=
  match t with
  | Some id => upd_timers (delete id) s
  | None => s
  end.

(** [fs.unlink(path, cb)] with a callback that at most logs: the path is
    gone afterwards, and a failure (the path did not exist) changes nothing. *)
Definition unlink (path : jsstring) (s : state) : state :=
  upd_disk (λ d, d ∖ {[path]}) s.

(** [keys.get(key)]: the session object registered under [key], with its
    identity. *)
Definition get_info (s : state) (key : jsstring) : option (loc * info) :=
  o ← keys s !! key; i ← heap s !! o; Some (o, i).

(** ** Session registry (lines 93-123) *)

Definition removeKey (key : jsstring) (s : state) : state :=
  match get_info s key with
  | None => s
  | Some (o, i) =>
      let s1 := clearTimeout (timer i) s in
      let s2 :=
        match files i with
        | [] => s1
        | _ :: _ =>
            upd_heap (<[o := set_files [] i]>)
              (foldl (λ acc f, unlink (fr_path f) acc) s1 (files i))
        end in
      upd_keys (delete key) s2
  end.

Definition expireKey (key : jsstring) (s : state) : timer_id * state :=
  let info := get_info s key in
  let '(t, s1) := setTimeout (CbRemoveKey key) (expireDelay * 1000) s in
  match info with
  | Some (o, i) =>
      (t, upd_heap (<[o := set_timer_alive t (now s) i]>)
            (clearTimeout (timer i) s1))
  | None => (t, s1)
  end.

(** ** Session creation (lines 167-205) *)

Inductive response :=
  | RKey (key : jsstring)                  (* POST /generate: the key *)
  | RCapacity                              (* POST /generate: "error" *)
  | RNotFound                              (* 404 *)
  | RForbidden                             (* 403 *)
  | RStatus (alive : Z) (names : list jsstring) (urls : list jsstring)
  | RFlash (status : N) (message : jsstring)
  | RThrow (status : N) (message : jsstring)
  | RNext                                  (* [return next()] *)
  | RSendfile (attachment : option jsstring) (path : jsstring)
  | ROk.

(** The [do ... while] loop of lines 175-183.  [rnd i] is the [i]-th draw;
    the result is the key (or [None] for the capacity error) with the final
    value of [attempts].  The loop is modelled with fuel; [generate] gives it
    enough. *)
Fixpoint key_loop (fuel : nat) (reg : gmap jsstring loc) (rnd : nat → N)
    (attempts : nat) : option (option jsstring * nat) :=
  match fuel with
  | O => None
  | S f =>
      let key := randomKey (rnd attempts) in
      if (size reg <? attempts)%nat then Some (None, attempts)
      else if bool_decide (is_Some (reg !! key))
           then key_loop f reg rnd (S attempts)
           else Some (Some key, S attempts)
  end.

Definition new_info (agent : jsstring) (t : Z) : info :=
  {| created := t; agent := agent; files := []; urls := []; timer := None;
     alive := t |}.

Definition generate (agent : jsstring) (rnd : nat → N) (s : state)
    : option (state * response) :=
  match key_loop (size (keys s) + 2) (keys s) rnd 0 with
  | None => None
  | Some (None, _) => Some (s, RCapacity)
  | Some (Some key, _) =>
      let o := next_loc s in
      let s1 :=
        {| keys := <[key := o]> (keys s);
           heap := <[o := new_info agent (now s)]> (heap s);
           timers := timers s; next_timer := next_timer s;
           next_loc := S o; disk := disk s; now := now s |} in
      let s2 := (expireKey key s1).2 in
      let s3 := (setTimeout (CbHardCap key o) (maxExpireDuration * 1000) s2).2 in
      Some (s3, RKey key)
  end.

(** The state [generate] leaves for a key that was not in use. *)
Definition generated (ag key : jsstring) (s : state) : state :=
  {| keys := <[key := next_loc s]> (keys s);
     heap := <[next_loc s :=
                 set_timer_alive (next_timer s) (now s) (new_info ag (now s))]>
               (heap s);
     timers :=
       <[S (next_timer s) :=
           (now s + maxExpireDuration * 1000, CbHardCap key (next_loc s))]>
         (<[next_timer s := (now s + expireDelay * 1000, CbRemoveKey key)]>
            (timers s));
     next_timer := S (S (next_timer s));
     next_loc := S (next_loc s);
     disk := disk s;
     now := now s |}.

(** ** Timer callbacks *)

Definition run_callback (cb : callback) (s : state) : state :=
  match cb with
  | CbRemoveKey key => removeKey key s
  | CbHardCap key o =>
      if bool_decide (keys s !! key = Some o) then removeKey key s else s
  end.

(** The timer [id] fires: it is no longer pending, the clock has reached its
    deadline, and its callback runs. *)
Definition fire (id : timer_id) (s : state) : state :=
  match timers s !! id with
  | Some (d, cb) =>
      run_callback cb (set_now (Z.max (now s) d) (upd_timers (delete id) s))
  | None => s
  end.

(** ** File names *)

(** [s.split(c)] and [parts.join(c)] for a one-character separator. *)
Fixpoint split_on (c : N) (s : jsstring) : list jsstring :=
  match s with
  | [] => [[]]
  | x :: s' =>
      if (x =? c)%N then [] :: split_on c s'
      else match split_on c s' with
           | h :: t => (x :: h) :: t
           | [] => [[x]]
           end
  end.

Fixpoint join_with (sep : jsstring) (parts : list jsstring) : jsstring :=
  match parts with
  | [] => []
  | [a] => a
  | a :: rest => a +++ sep +++ join_with sep rest
  end.

Fixpoint drop_leading (c : N) (s : jsstring) : jsstring :=
  match s with
  | [] => []
  | x :: s' => if (x =? c)%N then drop_leading c s' else s
  end.

(** Node's [path.extname]: the extension of the last path component, from
    its last dot; empty when that component has no dot, starts with its only
    dot, or is [..]. *)
Definition extname (p : jsstring) : jsstring :=
  let trimmed := rev (drop_leading 47 (rev p)) in
  let base := List.last (split_on 47 trimmed) [] in
  let parts := split_on 46 base in
  match parts with
  | [] | [_] => []
  | _ =>
      let ext := 46%N :: List.last parts [] in
      if bool_decide (length ext = length base) then []
      else if bool_decide (base = js "..") then []
      else ext
  end.

(** [\w] of a regular expression without the [u] flag. *)
Definition is_word (c : N) : bool :=
  ((48 <=? c) && (c <=? 57) || (65 <=? c) && (c <=? 90)
   || (97 <=? c) && (c <=? 122) || (c =? 95))%N.

(** The characters the negated class of line 384 lists, which are kept: word
    characters, dot, hyphen, the two quotes and the parentheses. *)
Definition kindle_safe (c : N) : bool :=
  (is_word c || (c =? 46) || (c =? 45) || (c =? 34) || (c =? 39)
   || (c =? 40) || (c =? 41))%N.

(** The [replace] of line 384, which puts an underscore for every match of
    the negated class: the expression has the [g] flag and no [u] flag, so
    it is matched against each code unit. *)
Definition kindle_replace (filename : jsstring) : jsstring :=
  List.map (λ c, if kindle_safe c then c else 95%N) filename.

(** ** Requests *)

(** A value of which the code asks [typeof v === "string"]. *)
Inductive jsval :=
  | JUndefined
  | JString (s : jsstring)
  | JOther.

(** What the upload handler reads of a request: the [x-upload-key] header,
    [ctx.query.key], and of [ctx.request.body] the fields [key], [url]
    ([String(url)], present when [url] is truthy) and the truthiness of
    [transliteration], [kindlegen] and [kepubify]. *)
Record upload_request := {
  hdr_key : jsval;
  query_key : jsval;
  body_key : jsval;
  body_url : option jsstring;
  body_transliteration : bool;
  body_kindlegen : bool;
  body_kepubify : bool;
}.

(** A file object of [ctx.request.files].  [originalname] is the name after
    line 140 has decoded and sanitised it. *)
Record upload_file := {
  originalname : jsstring;
  mimetype : jsstring;
  path : jsstring;
  size_bytes : N;
}.

(** How a converter process ends: the [error] event (it could not be
    launched), or the [close] event with its exit code ([None] for [null],
    a process killed by a signal), what it printed, and the files it wrote. *)
Inductive spawn_outcome :=
  | SpawnError (err : jsstring)
  | SpawnClose (code : option N) (output : jsstring) (written : gset jsstring).

(** What the outside world answers while one file is processed: the type
    [FileType.fromFile] sniffs ([None] for [undefined]) and the end of the
    converter process, should one be started. *)
Record file_env := {
  sniffed : option jsstring;
  spawned : spawn_outcome;
}.

Definition OCTET_STREAM : jsstring := js "application/octet-stream".

Definition conversion_name (c : conversion) : jsstring :=
  match c with
  | Kindlegen => js "kindlegen"
  | Kepubify => js "kepubify"
  end.

(** [String(code)] for an exit code. *)
Definition code_string (code : option N) : jsstring :=
  match code with
  | Some n => toString 10 n
  | None => js "null"
  end.

Definition unlink_all (l : list (upload_file * file_env)) (s : state) : state :=
  foldl (λ acc fe, unlink (path fe.1) acc) s l.

(** [info.files.push(r)] on the session object [o]. *)
Definition push_file (o : loc) (r : file_record) (s : state) : state :=
  upd_heap (alter (λ i, set_files (files i ++ [r]) i) o) s.

(** [info.urls.push(url)] on the session object [o]. *)
Definition push_url (o : loc) (url : jsstring) (s : state) : state :=
  upd_heap (alter (λ i, set_urls (urls i ++ [url]) i) o) s.

Section Handlers.
Context {L : JsLib}.

(** ** doTransliterate (lines 43-48) *)
Definition doTransliterate (filename : jsstring) : jsstring :=
  let name := split_on 46 filename in
  let ext := 46%N :: List.last name [] in
  let name := join_with [46%N] (removelast name) in
  transliterate name +++ ext.

(** ** getKeyFromRequest (lines 62-81) *)

(** [typeof v === "string" && v.trim()], and then
    [v.trim().toUpperCase()]. *)
Definition key_of (v : jsval) : option jsstring :=
  match v with
  | JString x =>
      if bool_decide (trim x ≠ []) then Some (toUpperCase (trim x)) else None
  | _ => None
  end.

Definition getKeyFromRequest (r : upload_request) : option jsstring :=
  match key_of (hdr_key r) with
  | Some key => Some key
  | None =>
      match key_of (query_key r) with
      | Some key => Some key
      | None =>
          let bodyKey :=
            match body_key r with
            | JString b => Some b
            | _ => None
            end in
          match bodyKey with
          | Some b =>
              if bool_decide (b ≠ []) && bool_decide (trim b ≠ [])
              then Some (toUpperCase (trim b)) else None
          | None => None
          end
      end
  end.

(** ** The multer file filter (lines 142-161)

    [None] is [cb(null, true)]; [Some m] is [cb(new Error(m), false)].  The
    test [!key] holds for [null] and for the empty string. *)
Definition fileFilter (s : state) (keyHeader : jsval) (file : upload_file)
    : option jsstring :=
  match key_of keyHeader with
  | None | Some [] =>
      Some (js "Missing key. Send x-upload-key header (recommended).")
  | Some key =>
      if bool_decide (keys s !! key = None) then Some (js "Unknown key " +++ key)
      else
        let fileExt := tail (toLowerCase (extname (originalname file))) in
        if (negb (arr_includes (mimetype file) allowedTypes)
            && bool_decide (mimetype file ≠ OCTET_STREAM))
           || negb (arr_includes fileExt allowedExtensions)
        then Some (js "Invalid filetype: " +++ originalname file +++ js " ("
                   +++ mimetype file +++ js ")")
        else None
  end.

(** ** processFile (lines 379-467)

    Of [info] the function reads [info.agent], which is never assigned after
    the session is created; of [ctx] the body flags.  The result is the
    record it returns, or the message of the error it throws. *)

(** The display name after lines 383-384. *)
Definition display_name (ag : jsstring) (r : upload_request) (file : upload_file)
    : jsstring :=
  let filename := originalname file in
  let filename :=
    if body_transliteration r then sanitize (doTransliterate filename)
    else filename in
  if includes (js "Kindle") ag then kindle_replace filename else filename.

(** The content type after lines 389-390. *)
Definition effective_type (file : upload_file) (e : file_env) : jsstring :=
  let mimetype :=
    match sniffed e with
    | Some mime =>
        if bool_decide (mimetype file = OCTET_STREAM) then mime else mimetype file
    | None => mimetype file
    end in
  if bool_decide (mimetype = js "application/epub") then TYPE_EPUB else mimetype.

Definition sniffed_allowed (e : file_env) : bool :=
  match sniffed e with
  | Some mime => arr_includes mime allowedTypes
  | None => false
  end.

Definition processFile (file : upload_file) (ag : jsstring) (r : upload_request)
    (e : file_env) (s : state) : state * (jsstring + file_record) :=
  let filename := display_name ag r file in
  let mimetype := effective_type file e in
  if negb (sniffed_allowed e) && negb (arr_includes mimetype allowedTypes) then
    (s, inl (js "Uploaded file is of an invalid type: " +++ originalname file
             +++ js " ("
             +++ match sniffed e with
                 | Some mime => mime
                 | None => js "unknown mimetype"
                 end
             +++ js ")"))
  else if bool_decide (mimetype = TYPE_EPUB) && includes (js "Kindle") ag
          && body_kindlegen r then
    let outname := replace_suffix_ci (js ".epub") (js ".mobi") (path file) in
    let filename :=
      replace_suffix_ci (js ".epub") (js ".mobi")
        (replace_suffix_ci (js ".kepub.epub") (js ".epub") filename) in
    let cleanup s :=
      unlink (replace_suffix_ci (js ".epub") (js ".mobi8") (path file))
        (unlink (path file) s) in
    match spawned e with
    | SpawnError err => (cleanup s, inl (js "kindlegen error: " +++ err))
    | SpawnClose code output written =>
        let s := cleanup (upd_disk (λ d, d ∪ written) s) in
        if bool_decide (code ≠ Some 0%N) && bool_decide (code ≠ Some 1%N) then
          (s, inl (js "kindlegen error code: " +++ code_string code
                   +++ [10%N] +++ output))
        else
          (s, inr {| fr_name := filename; fr_path := outname;
                     fr_uploaded := now s;
                     fr_conversion := Some Kindlegen |})
    end
  else if bool_decide (mimetype = TYPE_EPUB) && includes (js "Kobo") ag
          && body_kepubify r then
    let outname := replace_suffix_ci (js ".epub") (js ".kepub.epub") (path file) in
    let filename :=
      replace_suffix_ci (js ".epub") (js ".kepub.epub")
        (replace_suffix_ci (js ".kepub.epub") (js ".epub") filename) in
    match spawned e with
    | SpawnError err =>
        (unlink (path file) s, inl (js "kepubify error: " +++ err))
    | SpawnClose code output written =>
        let s := unlink (path file) (upd_disk (λ d, d ∪ written) s) in
        if bool_decide (code ≠ Some 0%N) then
          (s, inl (js "Kepubify error code: " +++ code_string code
                   +++ [10%N] +++ output))
        else
          (s, inr {| fr_name := filename; fr_path := outname;
                     fr_uploaded := now s;
                     fr_conversion := Some Kepubify |})
    end
  else
    (s, inr {| fr_name :=
                 replace_suffix_ci (js ".pdf") (js ".pdf")
                   (replace_suffix_ci (js ".epub") (js ".epub") filename);
               fr_path := path file;
               fr_uploaded := now s;
               fr_conversion := None |}).

(** The two allow-list tests of the upload pipeline: the content type, as
    declared (after lines 389-390) or as sniffed, and the extension of the
    original name. *)
Definition type_allowed (file : upload_file) (e : file_env) : bool :=
  arr_includes (effective_type file e) allowedTypes || sniffed_allowed e.

Definition extension_allowed (file : upload_file) : bool :=
  arr_includes (tail (toLowerCase (extname (originalname file)))) allowedExtensions.

(** The file system after a converter has run for a file: what it wrote is
    there; the handlers of its events then unlink their paths. *)
Definition after_run (e : file_env) (s : state) : state :=
  match spawned e with
  | SpawnError _ => s
  | SpawnClose _ _ written => upd_disk (λ d, d ∪ written) s
  end.

(** ** POST /upload (lines 246-319) *)

Definition CHECK : jsstring := [10003%N].
Definition CROSS : jsstring := [10007%N].

(** The accumulators of the loop: the state, [messages], and
    [processedFiles.length]. *)
Definition upload_acc : Type := state * list jsstring * nat.

(** One iteration of the loop of lines 279-295, for the session object [o]
    the handler holds, whose [agent] is [ag]. *)
Definition upload_item (o : loc) (ag : jsstring) (r : upload_request)
    (acc : upload_acc) (fe : upload_file * file_env) : upload_acc :=
  let '(s, messages, processed) := acc in
  let '(file, e) := fe in
  if (size_bytes file =? 0)%N then (unlink (path file) s, messages, processed)
  else
    match processFile file ag r e s with
    | (s1, inr processedFile) =>
        (push_file o processedFile s1,
         messages ++
           [CHECK +++ js " " +++ fr_name processedFile +++
              match fr_conversion processedFile with
              | Some c => js " (converted with " +++ conversion_name c +++ js ")"
              | None => []
              end],
         S processed)
    | (s1, inl err) =>
        (unlink (path file) s1,
         messages ++
           [CROSS +++ js " Error processing " +++ originalname file +++ js ": "
              +++ err],
         processed)
    end.

(** The handler after [upload.array] has returned, with the files it staged
    ([ctx.request.files]). *)
Definition upload_handler (r : upload_request)
    (staged : list (upload_file * file_env)) (s : state) : state * response :=
  match getKeyFromRequest r with
  | None | Some [] =>
      (unlink_all staged s,
       RFlash 400 (js "Missing key (send x-upload-key header)."))
  | Some key =>
      match get_info s key with
      | None => (unlink_all staged s, RFlash 400 (js "Unknown key " +++ key))
      | Some (o, i) =>
          let s := (expireKey key s).2 in
          let url := trim <$> body_url r in
          let s :=
            match url with
            | Some u =>
                if bool_decide (u ≠ []) && negb (arr_includes u (urls i))
                then push_url o u s else s
            | None => s
            end in
          let '(s, messages, processed) :=
            foldl (upload_item o (agent i) r) (s, [], 0%nat) staged in
          let messages :=
            match url with
            | Some u =>
                if bool_decide (u ≠ []) then
                  messages ++ [CHECK +++ js " Added url: " +++ u]
                else messages
            | None => messages
            end in
          match messages with
          | [] => (s, RFlash 400 (js "No file or url selected"))
          | _ :: _ =>
              let successMsg :=
                match processed with
                | O => []
                | S _ =>
                    js "Upload successful! " +++ toString 10 (N.of_nat processed)
                      +++ js " file(s) received:<br/>"
                end in
              (s, RFlash 200 (successMsg +++ join_with (js "<br/>") messages))
          end
      end
  end.

(** The whole handler (lines 237-319): [upload.array] throws [inl m] (the
    file filter's error, or one of multer's own) or leaves the staged
    files. *)
Definition upload (r : upload_request)
    (multer : jsstring + list (upload_file * file_env)) (s : state)
    : state * response :=
  match multer with
  | inl m => (s, RFlash 400 m)
  | inr staged => upload_handler r staged s
  end.

(** ** GET /status/:key (lines 212-235) *)
Definition status (key_param user_agent : jsstring) (s : state)
    : state * response :=
  let key := toUpperCase key_param in
  match get_info s key with
  | None => (s, RNotFound)
  | Some (o, i) =>
      if bool_decide (agent i ≠ user_agent) then (s, RForbidden)
      else
        let s := (expireKey key s).2 in
        match heap s !! o with
        | Some i => (s, RStatus (alive i) (fr_name <$> files i) (urls i))
        | None => (s, RNotFound)
        end
  end.

(** ** DELETE /file/:key/:filename (lines 321-336)

    [filename] is the decoded parameter. *)
Fixpoint remove_first (filename : jsstring) (l : list file_record)
    : option (file_record * list file_record) :=
  match l with
  | [] => None
  | f :: l' =>
      if bool_decide (fr_name f = filename) then Some (f, l')
      else
        match remove_first filename l' with
        | Some (g, rest) => Some (g, f :: rest)
        | None => None
        end
  end.

Definition deleteFile (key_param filename : jsstring) (s : state)
    : state * response :=
  let key := toUpperCase key_param in
  match get_info s key with
  | None => (s, RThrow 400 (js "Unknown key: " +++ key))
  | Some (o, i) =>
      match remove_first filename (files i) with
      | Some (file, rest) =>
          (upd_heap (<[o := set_files rest i]>) (unlink (fr_path file) s), ROk)
      | None => (s, ROk)
      end
  end.

(** ** GET /:filename (lines 338-358)

    [query_key] is [String(ctx.query.key)] when [ctx.query.key] is truthy. *)
Definition downloadFile (query_key : option jsstring)
    (filename user_agent : jsstring) (s : state) : state * response :=
  match toUpperCase <$> query_key with
  | None | Some [] => (s, RNext)
  | Some key =>
      match get_info s key with
      | None => (s, RNext)
      | Some (o, i) =>
          match List.find (λ f, bool_decide (fr_name f = filename)) (files i) with
          | None => (s, RNext)
          | Some file =>
              if bool_decide (agent i ≠ user_agent) then (s, RForbidden)
              else
                let s := (expireKey key s).2 in
                (s, RSendfile
                      (if includes (js "Kindle") (agent i)
                       then Some (fr_name file) else None)
                      (fr_path file))
          end
      end
  end.

(** ** The event loop

    One flow of control runs request handlers and timer callbacks to
    completion, one after the other. *)

Inductive request :=
  | ReqGenerate (user_agent : jsstring) (rnd : nat → N)
  | ReqStatus (key user_agent : jsstring)
  | ReqUpload (r : upload_request)
      (multer : jsstring + list (upload_file * file_env))
  | ReqDelete (key filename : jsstring)
  | ReqDownload (query_key : option jsstring) (filename user_agent : jsstring).

Definition handle (q : request) (s : state) : option (state * response) :=
  match q with
  | ReqGenerate user_agent rnd => generate user_agent rnd s
  | ReqStatus key user_agent => Some (status key user_agent s)
  | ReqUpload r multer => Some (upload r multer s)
  | ReqDelete key filename => Some (deleteFile key filename s)
  | ReqDownload query_key filename user_agent =>
      Some (downloadFile query_key filename user_agent s)
  end.

(** No pending timer is due at time [t]. *)
Definition none_due (t : Z) (s : state) : Prop :=
  map_Forall (λ _ dc, t < dc.1) (timers s).

(** The timer [id] is the next to fire: no pending timer is due earlier. *)
Definition next_due (id : timer_id) (s : state) : Prop :=
  ∃ d cb, timers s !! id = Some (d, cb) ∧
          map_Forall (λ _ dc, d ≤ dc.1) (timers s).

(** A step of the process.  Timers are punctual: work arriving at time [t]
    is run once every timer due by [t] has fired, and the pending timer with
    the earliest deadline fires first.
    - [step_request]: a request is handled at time [t];
    - [step_resume]: the upload handler [await]s while it processes a file,
      so other work can run between two iterations of its loop; an iteration
      that resumes later acts on the session object [o] the handler took from
      the registry, registered or not by then;
    - [step_stage]: multer stores an incoming file under [uploads/];
    - [step_fire]: a timer fires. *)
Inductive step : state → state → Prop :=
  | step_request s t q s' resp :
      now s ≤ t → none_due t s →
      handle q (set_now t s) = Some (s', resp) →
      step s s'
  | step_resume s t o i r messages processed fe :
      now s ≤ t → none_due t s →
      heap s !! o = Some i →
      step s (upload_item o (agent i) r (set_now t s, messages, processed) fe).1.1
  | step_stage s t p :
      now s ≤ t → none_due t s →
      step s (upd_disk (λ d, d ∪ {[p]}) (set_now t s))
  | step_fire s id :
      next_due id s →
      step s (fire id s).

Definition reachable (s : state) : Prop := rtc step init s.

End Handlers.

(** ** Invariants of the registry *)

(** The part of a session object the timers depend on. *)
Definition same_core (i i' : info) : Prop :=
  created i' = created i ∧ agent i' = agent i ∧ timer i' = timer i.

(** [s'] differs from [s] in the disk, and in the files, urls and
    last-activity time of session objects only. *)
Definition same_sessions (s s' : state) : Prop :=
  keys s' = keys s ∧ timers s' = timers s ∧
  next_timer s' = next_timer s ∧ next_loc s' = next_loc s ∧ now s' = now s ∧
  ∀ o, option_Forall2 same_core (heap s !! o) (heap s' !! o).

(** Every pending timer has a handle below [next_timer], and is not overdue. *)
Definition timers_ok (s : state) : Prop :=
  ∀ id d cb, timers s !! id = Some (d, cb) → (id < next_timer s)%nat ∧ now s ≤ d.

(** Every registered session is an allocated object whose [timer] is a
    pending [removeKey] timer for its key, and whose hard-cap timer is
    pending, due [maxExpireDuration] after its creation. *)
Definition live_ok (s : state) : Prop :=
  ∀ key o, keys s !! key = Some o →
    ∃ i t d, heap s !! o = Some i ∧ timer i = Some t ∧
             timers s !! t = Some (d, CbRemoveKey key) ∧
             ∃ h, timers s !! h =
                    Some (created i + maxExpireDuration * 1000, CbHardCap key o).

(** No session object is registered under two keys. *)
Definition keys_inj (s : state) : Prop :=
  ∀ k1 k2 o, keys s !! k1 = Some o → keys s !! k2 = Some o → k1 = k2.

(** Every pending [removeKey] timer is the [timer] of the session registered
    under its key. *)
Definition renew_ok (s : state) : Prop :=
  ∀ id d key, timers s !! id = Some (d, CbRemoveKey key) →
    ∃ o i, keys s !! key = Some o ∧ heap s !! o = Some i ∧ timer i = Some id.

Definition heap_ok (s : state) : Prop :=
  ∀ o i, heap s !! o = Some i → (o < next_loc s)%nat.

Record inv (s : state) : Prop := {
  inv_timers : timers_ok s;
  inv_live : live_ok s;
  inv_inj : keys_inj s;
  inv_renew : renew_ok s;
  inv_heap : heap_ok s;
}.

(** ** A run of the process, used to evaluate the definitions

    A Kindle creates a session at time 0 and stays idle; the session expires
    after ten minutes; at 700 s the same key is drawn for another device,
    which polls its status at 1200 s. *)
Definition demo_kindle : jsstring := js "Mozilla/5.0 (Kindle)".
Definition demo_kobo : jsstring := js "Mozilla/5.0 (Kobo Touch)".
Definition demo_draws : nat → N := λ _, 0%N.
Definition demo_key : jsstring := js "2222".

Definition demo_created : state :=
  generated demo_kindle demo_key (set_now 0 init).
Definition demo_expired : state := fire 0%nat demo_created.
Definition demo_reissued : state :=
  generated demo_kobo demo_key (set_now 700000 demo_expired).
Definition demo_polled : state :=
  (@status ascii_lib demo_key demo_kobo (set_now 1200000 demo_reissued)).1.

(** The session object of the second session, after its status poll. *)
Definition demo_info : info :=
  {| created := 700000; agent := demo_kobo; files := []; urls := [];
     timer := Some 4%nat; alive := 1200000 |}.

(** A second run: the Kindle of [demo_created] is sent a book at 2 s, through
    a request that carries the key in its header. *)
Definition demo_request : upload_request :=
  {| hdr_key := JString (js " 2222 "); query_key := JUndefined;
     body_key := JUndefined; body_url := None;
     body_transliteration := false; body_kindlegen := false;
     body_kepubify := false |}.

(** The same request with the kindlegen flag set. *)
Definition demo_convert : upload_request :=
  {| hdr_key := JString (js " 2222 "); query_key := JUndefined;
     body_key := JUndefined; body_url := None;
     body_transliteration := false; body_kindlegen := true;
     body_kepubify := false |}.

Definition demo_file : upload_file :=
  {| originalname := js "my book.epub"; mimetype := TYPE_EPUB;
     path := js "uploads/files-1.epub"; size_bytes := 5 |}.

(** The file is an EPUB; kindlegen, if run, ends with warnings. *)
Definition demo_env : file_env :=
  {| sniffed := Some TYPE_EPUB;
     spawned :=
       SpawnClose (Some 1%N) (js "Warning(prcgen):W14001")
         {[ js "uploads/files-1.mobi"; js "uploads/files-1.mobi8" ]} |}.

(** An empty item of unknown type with an allowed extension. *)
Definition demo_empty : upload_file :=
  {| originalname := js "empty.epub"; mimetype := OCTET_STREAM;
     path := js "uploads/files-2.epub"; size_bytes := 0 |}.
Definition demo_empty_env : file_env :=
  {| sniffed := None; spawned := SpawnError [] |}.

Definition demo_staged : state :=
  upd_disk (λ d, d ∪ {[path demo_file]}) (set_now 1000 demo_created).
Definition demo_uploaded : state :=
  (@upload ascii_lib demo_request (inr [(demo_file, demo_env)])
     (set_now 2000 demo_staged)).1.

Definition demo_record : file_record :=
  {| fr_name := js "my_book.epub"; fr_path := js "uploads/files-1.epub";
     fr_uploaded := 2000; fr_conversion := None |}.

(** The session object of the first session, after the upload. *)
Definition demo_info_uploaded : info :=
  {| created := 0; agent := demo_kindle; files := [demo_record]; urls := [];
     timer := Some 2%nat; alive := 2000 |}.

Definition demo_image_env : file_env :=
  {| sniffed := Some (js "image/png"); spawned := SpawnError [] |}.


(** ** Further notions used in the results *)

(** [keyChars.indexOf(c)] *)
Fixpoint index_of (c : N) (l : jsstring) : option N :=
  match l with
  | [] => None
  | x :: l' =>
      if (x =? c)%N then Some 0%N
      else N.succ <$> index_of c l'
  end.

(** The number a key spells in the alphabet of [keyChars], most significant
    character first; [None] when a character is not of the alphabet. *)
Fixpoint key_value (acc : N) (key : jsstring) : option N :=
  match key with
  | [] => Some acc
  | c :: key' =>
      match index_of c keyChars with
      | Some d => key_value (acc * N.of_nat (length keyChars) + d)%N key'
      | None => None
      end
  end.

(** The digit [d] is written by [toString], read by [parseInt] and looked
    up in [keyChars] as the character [index_of] finds at position [d]. *)
Definition digit_round_trip (d : N) : bool :=
  match keyChars_at (parseInt_char (N.of_nat (length keyChars)) (digit_char d)) with
  | Some c => bool_decide (index_of c keyChars = Some d)
  | None => false
  end.

(** The fields of a session object that only [generate] and [expireKey]
    write, and its urls up to additions that keep them free of duplicates. *)
Definition same_but_lists (i i' : info) : Prop :=
  created i' = created i ∧ agent i' = agent i ∧ timer i' = timer i ∧
  alive i' = alive i ∧ (NoDup (urls i) → NoDup (urls i')).

(** [s'] differs from [s] in the disk and in the files and urls of session
    objects only. *)
Definition lists_only (s s' : state) : Prop :=
  keys s' = keys s ∧ timers s' = timers s ∧
  next_timer s' = next_timer s ∧ next_loc s' = next_loc s ∧ now s' = now s ∧
  ∀ o, option_Forall2 same_but_lists (heap s !! o) (heap s' !! o).

(** The renewable timer of a registered session is due [expireDelay] seconds
    after its last activity, which lies between its creation and now. *)
Definition idle_ok (s : state) : Prop :=
  ∀ key o i, keys s !! key = Some o → heap s !! o = Some i →
    ∃ t, timer i = Some t ∧
         timers s !! t = Some (alive i + expireDelay * 1000, CbRemoveKey key) ∧
         created i ≤ alive i ∧ alive i ≤ now s.

(** No session object lists a url twice. *)
Definition urls_ok (s : state) : Prop :=
  ∀ o i, heap s !! o = Some i → NoDup (urls i).

(** Hard-cap closures are held for allocated objects, one per object. *)
Definition hardcap_ok (s : state) : Prop :=
  ∀ id d key o, timers s !! id = Some (d, CbHardCap key o) →
    (o < next_loc s)%nat ∧
    ∀ id' d' key', timers s !! id' = Some (d', CbHardCap key' o) → id' = id.

Record inv2 (s : state) : Prop := {
  inv_idle : idle_ok s;
  inv_urls : urls_ok s;
  inv_hardcap : hardcap_ok s;
}.

(** The session object [o] is registered under some key. *)
Definition registered (o : loc) (s : state) : Prop :=
  ∃ key, keys s !! key = Some o.

(** The items of a batch that are not empty. *)
Definition nonempty_items (staged : list (upload_file * file_env))
    : list (upload_file * file_env) :=
  List.filter (λ fe, negb (size_bytes fe.1 =? 0)%N) staged.

(** [s'] has the registry of [s], and every session object of [s] with the
    creation time and the device identity it had. *)
Definition same_identity (s s' : state) : Prop :=
  keys s' = keys s ∧ next_loc s' = next_loc s ∧
  ∀ o, option_Forall2 (λ i i', created i' = created i ∧ agent i' = agent i)
         (heap s !! o) (heap s' !! o).

(** ** GET / (lines 364-375): the page sent to a device *)
Definition landing {L : JsLib} (user_agent : jsstring) : jsstring :=
  if includes (js "Kobo") user_agent
     || includes (js "Kindle") user_agent
     || includes (js "tolino") (toLowerCase user_agent)
     || includes (js "eReader") user_agent
  then js "static/download.html"
  else js "static/upload.html".

(** The extension rewriting of line 458, for a file stored as it is. *)
Definition passthrough_name (filename : jsstring) : jsstring :=
  replace_suffix_ci (js ".pdf") (js ".pdf")
    (replace_suffix_ci (js ".epub") (js ".epub") filename).

(** ** A third run, used to evaluate the definitions

    The Kindle of [demo_uploaded] is sent the same link at 3 s and at 4 s. *)
Definition demo_link : upload_request :=
  {| hdr_key := JString (js "2222"); query_key := JUndefined;
     body_key := JUndefined; body_url := Some (js " https://example.org/a ");
     body_transliteration := false; body_kindlegen := false;
     body_kepubify := false |}.

Definition demo_linked : state :=
  (@upload ascii_lib demo_link (inr []) (set_now 3000 demo_uploaded)).1.
Definition demo_linked_twice : state :=
  (@upload ascii_lib demo_link (inr []) (set_now 4000 demo_linked)).1.

(** The session object of the first session before the upload. *)
Definition demo_info_created : info :=
  {| created := 0; agent := demo_kindle; files := []; urls := [];
     timer := Some 0%nat; alive := 0 |}.

(** The record kindlegen leaves for [demo_file]. *)
Definition demo_converted : file_record :=
  {| fr_name := js "my_book.mobi"; fr_path := js "uploads/files-1.mobi";
     fr_uploaded := 1000; fr_conversion := Some Kindlegen |}.

(** An upload without an extension. *)
Definition demo_bare : upload_file :=
  {| originalname := js "README"; mimetype := js "text/plain";
     path := js "uploads/files-4"; size_bytes := 7 |}.

(* ================================================================= *)
(** * Results *)

(** ** The key generator's results *)

Lemma to_digits_length (radix : N) (fuel k : nat) (n : N) :
  (1 < radix)%N → (n < radix ^ N.of_nat (S k))%N →
  (length (to_digits fuel radix n) ≤ S k)%nat.
Proof.
  intros Hr. revert k n.
  induction fuel as [|f IH]; intros k n Hn; simpl; [lia|].
  destruct (N.ltb_spec n radix) as [Hlt|Hge]; simpl; [lia|].
  rewrite length_app. simpl.
  destruct k as [|k].
  - change (N.of_nat 1) with 1%N in Hn. rewrite N.pow_1_r in Hn. lia.
  - assert (n / radix < radix ^ N.of_nat (S k))%N as Hq.
    { apply N.Div0.div_lt_upper_bound.
      rewrite <- N.pow_succ_r'. rewrite <- Nat2N.inj_succ. exact Hn. }
    specialize (IH k _ Hq). lia.
Qed.

Lemma to_digits_bound (radix : N) (fuel : nat) (n : N) :
  (0 < radix)%N → Forall (λ d, (d < radix)%N) (to_digits fuel radix n).
Proof.
  intros Hr. revert n.
  induction fuel as [|f IH]; intros n; simpl.
  - constructor; [|constructor]. apply N.mod_lt. lia.
  - destruct (N.ltb_spec n radix) as [Hlt|Hge].
    + constructor; [exact Hlt|constructor].
    + apply Forall_app. split; [apply IH|].
      constructor; [|constructor]. apply N.mod_lt. lia.
Qed.

Lemma digits_value_app radix acc ds d :
  digits_value radix acc (ds ++ [d]) = (digits_value radix acc ds * radix + d)%N.
Proof. revert acc. induction ds as [|x ds IH]; intros acc; simpl; [reflexivity|apply IH]. Qed.

Lemma to_digits_value (radix : N) (fuel : nat) (n : N) :
  (1 < radix)%N → (n < 2 ^ N.of_nat fuel)%N →
  digits_value radix 0 (to_digits fuel radix n) = n.
Proof.
  intros Hr. revert n.
  induction fuel as [|f IH]; intros n Hn; simpl.
  - change (2 ^ N.of_nat 0)%N with 1%N in Hn.
    assert (n = 0%N) as -> by lia. rewrite N.Div0.mod_0_l. reflexivity.
  - destruct (N.ltb_spec n radix) as [Hlt|Hge]; simpl; [reflexivity|].
    rewrite digits_value_app, IH.
    + rewrite N.mul_comm. symmetry. apply N.div_mod. lia.
    + rewrite Nat2N.inj_succ, N.pow_succ_r' in Hn.
      apply N.Div0.div_lt_upper_bound.
      assert (2 * 2 ^ N.of_nat f ≤ radix * 2 ^ N.of_nat f)%N.
      { apply N.mul_le_mono_r. lia. }
      lia.
Qed.

Lemma size_nat_size (n : N) : N.of_nat (N.size_nat n) = N.size n.
Proof.
  destruct n as [|p]; [reflexivity|].
  change (N.of_nat (Pos.size_nat p) = N.pos (Pos.size p)).
  induction p as [p IH|p IH|]; [| |reflexivity];
    change (N.of_nat (S (Pos.size_nat p)) = N.pos (Pos.succ (Pos.size p)));
    rewrite Nat2N.inj_succ, IH; reflexivity.
Qed.

(** The fuel of [toString] is enough: the digits it writes denote [n]. *)
Lemma toString_digits (radix n : N) :
  (1 < radix)%N →
  digits_value radix 0 (to_digits (N.size_nat n) radix n) = n.
Proof.
  intros Hr. apply to_digits_value; [exact Hr|].
  rewrite size_nat_size. apply N.size_gt.
Qed.

Lemma to_digits_nonempty (radix : N) (fuel : nat) (n : N) :
  to_digits fuel radix n ≠ [].
Proof.
  destruct fuel as [|f]; simpl; [discriminate|].
  destruct (n <? radix)%N; [discriminate|].
  intros H. apply app_eq_nil in H. destruct H as [_ H]. discriminate.
Qed.

Lemma digit_char_ok (d : N) : (d < 30)%N → digit_ok (digit_char d) = true.
Proof.
  intros Hd.
  assert (forallb (λ k, digit_ok (digit_char (N.of_nat k))) (seq 0 30) = true)
    as Hall by (vm_compute; reflexivity).
  rewrite forallb_forall in Hall.
  rewrite <- (N2Nat.id d). apply Hall. apply in_seq. lia.
Qed.

Lemma join_chars_ok (cs : jsstring) :
  Forall (λ c, digit_ok c = true) cs →
  let key :=
    join_chars
      (List.map (λ chr, keyChars_at (parseInt_char (N.of_nat (length keyChars)) chr)) cs) in
  length key = length cs ∧ Forall (λ c, c ∈ keyChars) key.
Proof.
  induction 1 as [|c cs Hc _ IH]; simpl; [split; [reflexivity|constructor]|].
  unfold digit_ok in Hc. unfold join_chars in *. simpl.
  destruct (keyChars_at _) as [k|]; [|discriminate]. simpl.
  destruct IH as [IH1 IH2]. split; [simpl; f_equal; exact IH1|].
  constructor; [|exact IH2]. apply bool_decide_eq_true in Hc. exact Hc.
Qed.

Lemma randomKey_shape (rnd : N) :
  (rnd < choices)%N →
  length (randomKey rnd) = keyLength ∧ Forall (λ c, c ∈ keyChars) (randomKey rnd).
Proof.
  intros Hrnd. unfold randomKey.
  set (radix := N.of_nat (length keyChars)).
  assert (radix = 30%N) as Hradix by reflexivity.
  set (ds := to_digits (N.size_nat rnd) radix rnd).
  assert (length ds ≤ 4)%nat as Hlen.
  { apply (to_digits_length radix _ 3); [rewrite Hradix; lia|exact Hrnd]. }
  assert (Forall (λ d, (d < radix)%N) ds) as Hds.
  { apply to_digits_bound. rewrite Hradix. lia. }
  assert (Forall (λ c, digit_ok c = true) (padStart0 keyLength (toString radix rnd)))
    as Hpad.
  { unfold padStart0, toString. fold ds. apply Forall_app. split.
    - apply Forall_forall. intros c Hc. apply list_elem_of_In, repeat_spec in Hc.
      subst c. reflexivity.
    - apply Forall_forall. intros c Hc. apply list_elem_of_In, in_map_iff in Hc.
      destruct Hc as [d [<- Hd]]. apply digit_char_ok.
      rewrite Forall_forall in Hds. rewrite <- Hradix.
      apply Hds, list_elem_of_In, Hd. }
  destruct (join_chars_ok _ Hpad) as [H1 H2]. split; [|exact H2].
  fold radix in H1. rewrite H1. unfold padStart0, toString. fold ds.
  rewrite length_app, repeat_length, length_map. unfold keyLength. lia.
Qed.

(** The loop of [generate] ends within [size + 2] iterations. *)
Lemma key_loop_total (reg : gmap jsstring loc) (rnd : nat → N) (fuel attempts : nat) :
  (attempts ≤ size reg + 1)%nat → (size reg + 2 ≤ fuel + attempts)%nat →
  is_Some (key_loop fuel reg rnd attempts).
Proof.
  revert attempts. induction fuel as [|f IH]; intros a Ha Hf; [lia|].
  simpl. destruct (Nat.ltb_spec (size reg) a) as [Hlt|Hge]; [eexists; reflexivity|].
  case_bool_decide; [|eexists; reflexivity].
  apply IH; lia.
Qed.

(** What the loop returns: the first candidate that is not in use, if it is
    among the draws 0 .. size; the capacity error when all of those are in
    use. *)
Lemma key_loop_spec (reg : gmap jsstring loc) (rnd : nat → N) (fuel a : nat)
    (res : option jsstring) (n : nat) :
  key_loop fuel reg rnd a = Some (res, n) →
  match res with
  | Some key =>
      (a < n)%nat ∧ (n ≤ size reg + 1)%nat ∧ key = randomKey (rnd (n - 1)%nat) ∧
      reg !! key = None ∧
      ∀ j, (a ≤ j)%nat → (j < n - 1)%nat → is_Some (reg !! randomKey (rnd j))
  | None =>
      n = Nat.max a (size reg + 1) ∧
      ∀ j, (a ≤ j)%nat → (j < n)%nat → is_Some (reg !! randomKey (rnd j))
  end.
Proof.
  revert a. induction fuel as [|f IH]; intros a; simpl; [discriminate|].
  destruct (Nat.ltb_spec (size reg) a) as [Hlt|Hge].
  - intros [= <- <-]. split; [lia|intros; lia].
  - case_bool_decide as Hlive.
    + intros Hrec. specialize (IH _ Hrec). destruct res as [key|].
      * destruct IH as (? & ? & ? & ? & Hbefore).
        repeat split; [lia|lia|done|done|].
        intros j Hj1 Hj2. destruct (decide (j = a)) as [->|Hne]; [exact Hlive|].
        apply Hbefore; lia.
      * destruct IH as (? & Hbefore). split; [lia|].
        intros j Hj1 Hj2. destruct (decide (j = a)) as [->|Hne]; [exact Hlive|].
        apply Hbefore; lia.
    + intros [= <- <-]. replace (S a - 1)%nat with a by lia.
      repeat split; [lia|lia| |intros; lia].
      destruct (reg !! randomKey (rnd a)) eqn:E; [|reflexivity].
      exfalso. apply Hlive. eexists; reflexivity.
Qed.


(** ** Changes that leave sessions and timers alone *)

Lemma same_core_refl i : same_core i i.
Proof. repeat split. Qed.

Lemma same_sessions_refl s : same_sessions s s.
Proof.
  repeat split. intros o. destruct (heap s !! o); constructor. apply same_core_refl.
Qed.

Lemma same_sessions_trans s1 s2 s3 :
  same_sessions s1 s2 → same_sessions s2 s3 → same_sessions s1 s3.
Proof.
  intros (?&?&?&?&?&H12) (?&?&?&?&?&H23). repeat split; try congruence.
  intros o. specialize (H12 o). specialize (H23 o).
  destruct H12 as [i1 i2 (?&?&?)|]; inversion H23 as [? i3 (?&?&?)|]; subst;
    constructor. repeat split; congruence.
Qed.

Lemma same_sessions_disk f s : same_sessions s (upd_disk f s).
Proof.
  repeat split. intros o. simpl. destruct (heap s !! o); constructor.
  apply same_core_refl.
Qed.

Lemma same_sessions_unlink p s : same_sessions s (unlink p s).
Proof. apply same_sessions_disk. Qed.

Lemma same_sessions_alter (f : info → info) o s :
  (∀ i, same_core i (f i)) → same_sessions s (upd_heap (alter f o) s).
Proof.
  intros Hf. repeat split. intros o'. simpl.
  destruct (decide (o = o')) as [->|Hne].
  - rewrite lookup_alter_eq. destruct (heap s !! o'); constructor. apply Hf.
  - rewrite lookup_alter_ne by done. destruct (heap s !! o'); constructor.
    apply same_core_refl.
Qed.

Lemma same_sessions_push_file o r s : same_sessions s (push_file o r s).
Proof. apply same_sessions_alter. intros i. repeat split. Qed.

Lemma same_sessions_push_url o u s : same_sessions s (push_url o u s).
Proof. apply same_sessions_alter. intros i. repeat split. Qed.

Lemma same_sessions_insert o i i' s :
  heap s !! o = Some i → same_core i i' →
  same_sessions s (upd_heap (<[o := i']>) s).
Proof.
  intros Ho Hc. repeat split. intros o'. simpl.
  destruct (decide (o = o')) as [->|Hne].
  - rewrite lookup_insert_eq, Ho. constructor. exact Hc.
  - rewrite lookup_insert_ne by done. destruct (heap s !! o'); constructor.
    apply same_core_refl.
Qed.

Lemma same_sessions_unlink_all l s : same_sessions s (unlink_all l s).
Proof.
  unfold unlink_all. revert s. induction l as [|fe l IH]; intros s; simpl.
  - apply same_sessions_refl.
  - eapply same_sessions_trans; [apply (same_sessions_unlink (path fe.1))|apply IH].
Qed.

Section HandlersFrame.
Context {L : JsLib}.

Lemma same_sessions_processFile file ag r e s :
  same_sessions s (processFile file ag r e s).1.
Proof.
  unfold processFile.
  repeat match goal with
         | |- context [if ?b then _ else _] => destruct b
         | |- context [match spawned ?e with _ => _ end] => destruct (spawned e)
         end; simpl;
    repeat first [ apply same_sessions_refl
                 | eapply same_sessions_trans; [|apply same_sessions_unlink]
                 | eapply same_sessions_trans; [|apply same_sessions_disk] ].
Qed.

Lemma same_sessions_upload_item o ag r s messages processed fe :
  same_sessions s (upload_item o ag r (s, messages, processed) fe).1.1.
Proof.
  unfold upload_item. destruct fe as [file e].
  destruct (size_bytes file =? 0)%N; simpl; [apply same_sessions_unlink|].
  pose proof (same_sessions_processFile file ag r e s) as Hp.
  destruct (processFile file ag r e s) as [s1 [err|rec]]; simpl in *.
  - eapply same_sessions_trans; [exact Hp|apply same_sessions_unlink].
  - eapply same_sessions_trans; [exact Hp|apply same_sessions_push_file].
Qed.

Lemma same_sessions_upload_loop o ag r staged acc :
  same_sessions acc.1.1 (foldl (upload_item o ag r) acc staged).1.1.
Proof.
  revert acc. induction staged as [|fe l IH]; intros acc; simpl.
  - apply same_sessions_refl.
  - eapply same_sessions_trans; [|apply IH].
    destruct acc as [[s m] n]. apply same_sessions_upload_item.
Qed.

End HandlersFrame.

Lemma inv_same_sessions s s' : same_sessions s s' → inv s → inv s'.
Proof.
  intros (Hk & Ht & Hnt & Hnl & Hnow & Hh) [I1 I2 I3 I4 I5].
  split.
  - intros id d cb. rewrite Ht, Hnt, Hnow. apply I1.
  - intros key o. rewrite Hk. intros Hkey.
    destruct (I2 _ _ Hkey) as (i & t & d & Hi & Hti & Htm & h & Hh').
    specialize (Hh o). rewrite Hi in Hh. inversion Hh as [? i' (Hc & _ & Htt) Ha Hb|].
    exists i', t, d. rewrite Ht. repeat split; [congruence|done|].
    exists h. rewrite Hc. exact Hh'.
  - intros k1 k2 o. rewrite Hk. apply I3.
  - intros id d key. rewrite Ht, Hk. intros Hid.
    destruct (I4 _ _ _ Hid) as (o & i & Hko & Hi & Hti).
    specialize (Hh o). rewrite Hi in Hh. inversion Hh as [? i' (_ & _ & Htt) Ha Hb|].
    exists o, i'. repeat split; congruence.
  - intros o i'. rewrite Hnl. intros Hi'. specialize (Hh o). rewrite Hi' in Hh.
    inversion Hh as [i ? _ Ha Hb|]. symmetry in Ha. eapply I5, Ha.
Qed.

(** ** The registry operations keep the invariants *)

Lemma get_info_Some s key o i :
  get_info s key = Some (o, i) ↔ keys s !! key = Some o ∧ heap s !! o = Some i.
Proof.
  unfold get_info. split.
  - intros H. destruct (keys s !! key) as [o'|]; simpl in H; [|discriminate].
    destruct (heap s !! o') as [i'|] eqn:E; simpl in H; [|discriminate].
    injection H as <- <-. done.
  - intros [-> Hi]. simpl. rewrite Hi. reflexivity.
Qed.

Lemma get_info_None_keys s key : keys s !! key = None → get_info s key = None.
Proof. unfold get_info. intros ->. reflexivity. Qed.

Lemma get_info_live s key o :
  live_ok s → keys s !! key = Some o →
  ∃ i, get_info s key = Some (o, i).
Proof.
  intros Hl Hk. destruct (Hl _ _ Hk) as (i & _ & _ & Hi & _).
  exists i. apply get_info_Some. done.
Qed.

Lemma inv_init : inv init.
Proof.
  split.
  - intros id d cb H. simpl in H. rewrite lookup_empty in H. discriminate.
  - intros key o H. simpl in H. rewrite lookup_empty in H. discriminate.
  - intros k1 k2 o H. simpl in H. rewrite lookup_empty in H. discriminate.
  - intros id d key H. simpl in H. rewrite lookup_empty in H. discriminate.
  - intros o i H. simpl in H. rewrite lookup_empty in H. discriminate.
Qed.

Lemma inv_set_now t s : now s ≤ t → none_due t s → inv s → inv (set_now t s).
Proof.
  intros Ht Hdue [I1 I2 I3 I4 I5]. split; try done.
  intros id d cb Hid. simpl in *. split; [eapply I1, Hid|].
  specialize (Hdue _ _ Hid). simpl in Hdue. lia.
Qed.

Lemma inv_expireKey key o i s :
  inv s → keys s !! key = Some o → heap s !! o = Some i →
  inv (expireKey key s).2.
Proof.
  intros [I1 I2 I3 I4 I5] Hk Hi.
  destruct (I2 _ _ Hk) as (i0 & t & d & Hi0 & Hti & Htm & h & Hh).
  assert (i0 = i) as -> by congruence.
  unfold expireKey. rewrite (proj2 (get_info_Some s key o i)) by done.
  simpl. rewrite Hti. simpl.
  destruct (I1 _ _ _ Htm) as [Htlt _]. destruct (I1 _ _ _ Hh) as [Hhlt _].
  split.
  - intros id d' cb. simpl. intros Hid.
    apply lookup_delete_Some in Hid as [Hne Hid].
    apply lookup_insert_Some in Hid as [[<- [= <- <-]]|[Hne' Hid]].
    + split; [lia|]. unfold expireDelay. lia.
    + destruct (I1 _ _ _ Hid). split; [lia|done].
  - intros key' o' Hk'. simpl in *.
    destruct (decide (key' = key)) as [->|Hkne].
    + assert (o' = o) as -> by congruence.
      exists (set_timer_alive (next_timer s) (now s) i), (next_timer s), (now s + expireDelay * 1000).
      rewrite lookup_insert_eq. repeat split.
      * rewrite lookup_delete_ne by lia. apply lookup_insert_eq.
      * exists h. simpl. rewrite lookup_delete_ne by congruence.
        rewrite lookup_insert_ne by lia. exact Hh.
    + destruct (I2 _ _ Hk') as (i' & t' & d' & Hi' & Hti' & Htm' & h' & Hh').
      assert (o' ≠ o) as Hone by (intros ->; apply Hkne; eapply I3; eauto).
      exists i', t', d'. rewrite lookup_insert_ne by done.
      destruct (I1 _ _ _ Htm'). destruct (I1 _ _ _ Hh').
      repeat split; [done|done| |].
      * rewrite lookup_delete_ne by congruence.
        rewrite lookup_insert_ne by lia. exact Htm'.
      * exists h'. rewrite lookup_delete_ne by congruence.
        rewrite lookup_insert_ne by lia. exact Hh'.
  - exact I3.
  - intros id d' key'. simpl. intros Hid.
    apply lookup_delete_Some in Hid as [Hne Hid].
    apply lookup_insert_Some in Hid as [[<- [= <- <-]]|[Hne' Hid]].
    + exists o, (set_timer_alive (next_timer s) (now s) i).
      rewrite lookup_insert_eq. done.
    + destruct (I4 _ _ _ Hid) as (o' & i' & Hk' & Hi' & Hti').
      assert (o' ≠ o) as Hone by (intros ->; congruence).
      exists o', i'. rewrite lookup_insert_ne by done. done.
  - intros o' i'. simpl. intros Ho'.
    apply lookup_insert_Some in Ho' as [[<- _]|[_ Ho']]; eauto.
Qed.

Lemma set_files_id l i : files i = l → set_files l i = i.
Proof. intros <-. destruct i; reflexivity. Qed.

Lemma unlink_fold (l : list file_record) (s0 : state) :
  let s' := foldl (λ acc f, unlink (fr_path f) acc) s0 l in
  keys s' = keys s0 ∧ timers s' = timers s0 ∧ next_timer s' = next_timer s0 ∧
  next_loc s' = next_loc s0 ∧ now s' = now s0 ∧ heap s' = heap s0 ∧
  disk s' = disk s0 ∖ list_to_set (fr_path <$> l).
Proof.
  revert s0. induction l as [|f l IH]; intros s0; simpl.
  - repeat split. symmetry. apply difference_empty_L.
  - destruct (IH (unlink (fr_path f) s0)) as (-> & -> & -> & -> & -> & -> & ->).
    repeat split. simpl. apply difference_difference_l_L.
Qed.

(** What [removeKey] does to a registered session: its [timer] is cleared,
    the path of every file record is unlinked, its [files] are emptied, and
    the key leaves the registry. *)
Lemma removeKey_live key o i s :
  keys s !! key = Some o → heap s !! o = Some i →
  keys (removeKey key s) = delete key (keys s) ∧
  timers (removeKey key s) =
    match timer i with Some t => delete t (timers s) | None => timers s end ∧
  next_timer (removeKey key s) = next_timer s ∧
  next_loc (removeKey key s) = next_loc s ∧
  now (removeKey key s) = now s ∧
  heap (removeKey key s) = <[o := set_files [] i]> (heap s) ∧
  disk (removeKey key s) = disk s ∖ list_to_set (fr_path <$> files i).
Proof.
  intros Hk Hi. unfold removeKey.
  rewrite (proj2 (get_info_Some s key o i)) by done.
  destruct (files i) as [|f l] eqn:Hfiles.
  - rewrite (set_files_id [] i Hfiles). simpl.
    rewrite difference_empty_L, (insert_id _ _ _ Hi).
    destruct (timer i); repeat split.
  - destruct (unlink_fold (f :: l) (clearTimeout (timer i) s))
      as (H1 & H2 & H3 & H4 & H5 & H6 & H7).
    cbv zeta in *. simpl. simpl in H1, H2, H3, H4, H5, H6, H7.
    rewrite H1, H2, H3, H4, H5, H6, H7.
    destruct (timer i); repeat split.
Qed.

(** Sessions and timers are only taken away: the invariants survive when
    the timers of every session that stays are still pending, and no
    [removeKey] timer outlives its session. *)
Lemma inv_shrink s s' :
  inv s →
  keys s' ⊆ keys s → timers s' ⊆ timers s →
  next_timer s' = next_timer s → next_loc s' = next_loc s →
  (∀ id d cb, timers s' !! id = Some (d, cb) → now s' ≤ d) →
  (∀ o, option_Forall2 same_core (heap s !! o) (heap s' !! o)) →
  (∀ key o t d cb, keys s' !! key = Some o → timers s !! t = Some (d, cb) →
     cb = CbRemoveKey key ∨ cb = CbHardCap key o →
     timers s' !! t = Some (d, cb)) →
  (∀ id d key, timers s' !! id = Some (d, CbRemoveKey key) →
     is_Some (keys s' !! key)) →
  inv s'.
Proof.
  intros [I1 I2 I3 I4 I5] Hk Ht Hnt Hnl Hnow Hh HA HB. split.
  - intros id d cb Hid. split; [|eapply Hnow, Hid].
    rewrite Hnt. eapply I1, lookup_weaken, Ht. exact Hid.
  - intros key o Hkey.
    destruct (I2 key o) as (i & t & d & Hi & Hti & Htm & h & Hh');
      [eapply lookup_weaken; eauto|].
    specialize (Hh o). rewrite Hi in Hh.
    inversion Hh as [? i' (Hc & _ & Htt) Ha Hb|].
    exists i', t, d. repeat split; [congruence|eauto|].
    exists h. rewrite Hc. eapply HA; eauto.
  - intros k1 k2 o H1 H2. eapply I3; eapply lookup_weaken; eauto.
  - intros id d key Hid.
    destruct (I4 id d key) as (o & i & Hko & Hi & Hti);
      [eapply lookup_weaken; eauto|].
    destruct (HB _ _ _ Hid) as [o' Ho'].
    assert (o' = o) as ->.
    { pose proof (lookup_weaken _ _ _ _ Ho' Hk). congruence. }
    specialize (Hh o). rewrite Hi in Hh.
    inversion Hh as [? i' (_ & _ & Htt) Ha Hb|].
    exists o, i'. repeat split; congruence.
  - intros o i' Hi'. rewrite Hnl. specialize (Hh o). rewrite Hi' in Hh.
    inversion Hh as [i ? _ Ha Hb|]. symmetry in Ha. eapply I5, Ha.
Qed.

Lemma same_core_heap_insert (hp : gmap loc info) o i i' :
  hp !! o = Some i → same_core i i' →
  ∀ o', option_Forall2 same_core (hp !! o') (<[o := i']> hp !! o').
Proof.
  intros Ho Hc o'. destruct (decide (o = o')) as [->|Hne].
  - rewrite lookup_insert_eq, Ho. constructor. exact Hc.
  - rewrite lookup_insert_ne by done. destruct (hp !! o'); constructor.
    apply same_core_refl.
Qed.

Lemma same_core_heap_refl (hp : gmap loc info) :
  ∀ o', option_Forall2 same_core (hp !! o') (hp !! o').
Proof. intros o'. destruct (hp !! o'); constructor. apply same_core_refl. Qed.

Lemma inv_fire id s : inv s → next_due id s → inv (fire id s).
Proof.
  intros Hinv (d & cb & Hid & Hmin). pose proof Hinv as [I1 I2 I3 I4 I5].
  unfold fire. rewrite Hid.
  set (s0 := set_now (Z.max (now s) d) (upd_timers (delete id) s)).
  assert (∀ id' d' cb' (m : gmap timer_id (Z * callback)),
            m ⊆ delete id (timers s) → m !! id' = Some (d', cb') →
            Z.max (now s) d ≤ d') as Hnow.
  { intros id' d' cb' m Hm Hid'.
    pose proof (lookup_weaken _ _ _ _ Hid' Hm) as Hin.
    apply lookup_delete_Some in Hin as [_ Hin].
    specialize (Hmin _ _ Hin). simpl in Hmin.
    destruct (I1 _ _ _ Hin). lia. }
  destruct cb as [key|key o]; simpl.
  - destruct (I4 _ _ _ Hid) as (o & i & Hk & Hi & Hti).
    destruct (removeKey_live key o i s0) as (E1 & E2 & E3 & E4 & E5 & E6 & _);
      [done|done|].
    rewrite Hti in E2. simpl in E2.
    apply (inv_shrink s); try done.
    + rewrite E1. apply delete_subseteq.
    + rewrite E2. etrans; apply delete_subseteq.
    + intros id' d' cb' Hid'. rewrite E5. simpl.
      eapply (Hnow _ _ _ (timers (removeKey key s0))); [|exact Hid'].
      rewrite E2. apply delete_subseteq.
    + rewrite E6. simpl. apply (same_core_heap_insert _ _ i); [done|].
      repeat split.
    + intros key' o' t d' cb Hk' Ht Hcb. rewrite E1 in Hk'.
      apply lookup_delete_Some in Hk' as [Hne Hk'].
      rewrite E2. rewrite !lookup_delete_ne; [done| |];
        intros ->; destruct Hcb; congruence.
    + intros id' d' key' Hid'. rewrite E2 in Hid'.
      apply lookup_delete_Some in Hid' as [Hne Hid'].
      apply lookup_delete_Some in Hid' as [_ Hid'].
      destruct (I4 _ _ _ Hid') as (o' & i' & Hk' & Hi' & Hti').
      rewrite E1. exists o'. apply lookup_delete_Some. split; [|done].
      intros ->. congruence.
  - case_bool_decide as Hguard.
    + destruct (I2 _ _ Hguard) as (i & t & dt & Hi & Hti & Htm & _).
      destruct (removeKey_live key o i s0) as (E1 & E2 & E3 & E4 & E5 & E6 & _);
        [done|done|].
      rewrite Hti in E2. simpl in E2.
      apply (inv_shrink s); try done.
      * rewrite E1. apply delete_subseteq.
      * rewrite E2. etrans; apply delete_subseteq.
      * intros id' d' cb' Hid'. rewrite E5. simpl.
        eapply (Hnow _ _ _ (timers (removeKey key s0))); [|exact Hid'].
        rewrite E2. apply delete_subseteq.
      * rewrite E6. simpl. apply (same_core_heap_insert _ _ i); [done|].
        repeat split.
      * intros key' o' t' d' cb Hk' Ht Hcb. rewrite E1 in Hk'.
        apply lookup_delete_Some in Hk' as [Hne Hk'].
        rewrite E2. rewrite !lookup_delete_ne; [done| |];
          intros ->; destruct Hcb; congruence.
      * intros id' d' key' Hid'. rewrite E2 in Hid'.
        apply lookup_delete_Some in Hid' as [Hne Hid'].
        apply lookup_delete_Some in Hid' as [_ Hid'].
        destruct (I4 _ _ _ Hid') as (o' & i' & Hk' & Hi' & Hti').
        rewrite E1. exists o'. apply lookup_delete_Some. split; [|done].
        intros ->. congruence.
    + apply (inv_shrink s); try done.
      * apply delete_subseteq.
      * intros id' d' cb' Hid'. simpl in *.
        eapply (Hnow _ _ _ (delete id (timers s))); [done|exact Hid'].
      * apply same_core_heap_refl.
      * intros key' o' t' d' cb Hk' Ht Hcb. simpl in *.
        rewrite lookup_delete_ne; [done|].
        intros ->. destruct Hcb; congruence.
      * intros id' d' key' Hid'. simpl in *.
        apply lookup_delete_Some in Hid' as [_ Hid'].
        destruct (I4 _ _ _ Hid') as (o' & i' & Hk' & _). eauto.
Qed.

Lemma expireKey_Some key o i s :
  get_info s key = Some (o, i) →
  expireKey key s =
    (next_timer s,
     upd_heap (<[o := set_timer_alive (next_timer s) (now s) i]>)
       (clearTimeout (timer i)
          (setTimeout (CbRemoveKey key) (expireDelay * 1000) s).2)).
Proof. intros H. unfold expireKey. rewrite H. reflexivity. Qed.

Lemma expireKey_None key s :
  get_info s key = None →
  expireKey key s = setTimeout (CbRemoveKey key) (expireDelay * 1000) s.
Proof. intros H. unfold expireKey. rewrite H. reflexivity. Qed.

Lemma generate_cases ag rnd s :
  ∃ res n, key_loop (size (keys s) + 2) (keys s) rnd 0 = Some (res, n) ∧
    generate ag rnd s =
      Some match res with
           | Some key => (generated ag key s, RKey key)
           | None => (s, RCapacity)
           end.
Proof.
  destruct (key_loop_total (keys s) rnd (size (keys s) + 2) 0) as [[res n] Hloop];
    [lia|lia|].
  exists res, n. split; [exact Hloop|].
  unfold generate. rewrite Hloop. destruct res as [key|]; [|reflexivity].
  f_equal. f_equal.
  rewrite (expireKey_Some key (next_loc s) (new_info ag (now s))).
  - unfold generated. simpl. rewrite insert_insert_eq. reflexivity.
  - apply get_info_Some. simpl. rewrite !lookup_insert_eq. done.
Qed.

Lemma inv_generated ag key s :
  inv s → keys s !! key = None → inv (generated ag key s).
Proof.
  intros [I1 I2 I3 I4 I5] Hfresh.
  assert (∀ k o, keys s !! k = Some o → (o < next_loc s)%nat) as Hold.
  { intros k o Hk. destruct (I2 _ _ Hk) as (i & _ & _ & Hi & _). eapply I5, Hi. }
  split.
  - intros id d cb. simpl. intros Hid.
    apply lookup_insert_Some in Hid as [[<- [= <- <-]]|[_ Hid]].
    { split; [lia|]. unfold maxExpireDuration. lia. }
    apply lookup_insert_Some in Hid as [[<- [= <- <-]]|[_ Hid]].
    { split; [lia|]. unfold expireDelay. lia. }
    destruct (I1 _ _ _ Hid). split; [lia|done].
  - intros key' o'. simpl. intros Hk'.
    apply lookup_insert_Some in Hk' as [[<- <-]|[Hne Hk']].
    + eexists _, (next_timer s), _. rewrite lookup_insert_eq. repeat split.
      * rewrite lookup_insert_ne by lia. apply lookup_insert_eq.
      * exists (S (next_timer s)). simpl. apply lookup_insert_eq.
    + destruct (I2 _ _ Hk') as (i' & t' & d' & Hi' & Hti' & Htm' & h' & Hh').
      pose proof (Hold _ _ Hk'). destruct (I1 _ _ _ Htm'). destruct (I1 _ _ _ Hh').
      exists i', t', d'. rewrite lookup_insert_ne by lia.
      repeat split; [done|done| |].
      * rewrite !lookup_insert_ne by lia. exact Htm'.
      * exists h'. rewrite !lookup_insert_ne by lia. exact Hh'.
  - intros k1 k2 o. simpl. intros H1 H2.
    apply lookup_insert_Some in H1 as [[<- <-]|[Hne1 H1]];
      apply lookup_insert_Some in H2 as [[<- ?]|[Hne2 H2]]; try done.
    + pose proof (Hold _ _ H2). lia.
    + pose proof (Hold _ _ H1). lia.
    + eapply I3; eauto.
  - intros id d key'. simpl. intros Hid.
    apply lookup_insert_Some in Hid as [[_ [=]]|[_ Hid]].
    apply lookup_insert_Some in Hid as [[<- [= <- <-]]|[Hne Hid]].
    + eexists _, _. rewrite !lookup_insert_eq. done.
    + destruct (I4 _ _ _ Hid) as (o' & i' & Hk' & Hi' & Hti').
      pose proof (Hold _ _ Hk').
      exists o', i'. rewrite lookup_insert_ne by congruence.
      rewrite lookup_insert_ne by lia. done.
  - intros o i. simpl. intros Ho.
    apply lookup_insert_Some in Ho as [[<- _]|[_ Ho]]; [lia|].
    pose proof (I5 _ _ Ho). lia.
Qed.

Section Reachability.
Context {L : JsLib}.

Lemma inv_upload_handler r staged s :
  inv s → inv (upload_handler r staged s).1.
Proof.
  intros Hinv. unfold upload_handler.
  destruct (getKeyFromRequest r) as [[|c k]|];
    [eapply inv_same_sessions, Hinv; apply same_sessions_unlink_all|
    |eapply inv_same_sessions, Hinv; apply same_sessions_unlink_all].
  set (key := c :: k).
  destruct (get_info s key) as [[o i]|] eqn:Hget; simpl;
    [|eapply inv_same_sessions, Hinv; apply same_sessions_unlink_all].
  apply get_info_Some in Hget as [Hk Hi].
  pose proof (inv_expireKey key o i s Hinv Hk Hi) as Hinv1.
  set (s1 := (expireKey key s).2) in *.
  set (s2 := match trim <$> body_url r with
             | Some u => if bool_decide (u ≠ []) && negb (arr_includes u (urls i))
                         then push_url o u s1 else s1
             | None => s1
             end).
  assert (inv s2) as Hinv2.
  { unfold s2. destruct (trim <$> body_url r) as [u|]; [|done].
    destruct (_ && _); [|done].
    eapply inv_same_sessions, Hinv1. apply same_sessions_push_url. }
  pose proof (same_sessions_upload_loop o (agent i) r staged (s2, [], 0%nat)) as Hloop.
  destruct (foldl _ _ staged) as [[s3 messages] processed]. simpl in Hloop.
  assert (inv s3) as Hinv3 by (eapply inv_same_sessions; eauto).
  match goal with |- inv (match ?m with _ => _ end).1 => destruct m end; done.
Qed.

Lemma inv_status key ag s : inv s → inv (status key ag s).1.
Proof.
  intros Hinv. unfold status.
  destruct (get_info s _) as [[o i]|] eqn:Hget; [|done].
  case_bool_decide; [done|].
  apply get_info_Some in Hget as [Hk Hi].
  pose proof (inv_expireKey _ o i s Hinv Hk Hi).
  destruct (heap (expireKey _ s).2 !! o); done.
Qed.

Lemma inv_deleteFile key filename s : inv s → inv (deleteFile key filename s).1.
Proof.
  intros Hinv. unfold deleteFile.
  destruct (get_info s _) as [[o i]|] eqn:Hget; [|done].
  apply get_info_Some in Hget as [Hk Hi].
  destruct (remove_first filename (files i)) as [[file rest]|]; [|done].
  simpl. eapply inv_same_sessions, Hinv.
  eapply same_sessions_trans; [apply (same_sessions_unlink (fr_path file))|].
  apply (same_sessions_insert o i); [done|]. repeat split.
Qed.

Lemma inv_downloadFile qk filename ag s :
  inv s → inv (downloadFile qk filename ag s).1.
Proof.
  intros Hinv. unfold downloadFile.
  destruct (toUpperCase <$> qk) as [[|c key]|]; [done| |done].
  destruct (get_info s _) as [[o i]|] eqn:Hget; [|done].
  destruct (find _ _); [|done].
  case_bool_decide; [done|].
  apply get_info_Some in Hget as [Hk Hi].
  apply (inv_expireKey _ o i s Hinv Hk Hi).
Qed.

Lemma inv_handle q s s' resp :
  inv s → handle q s = Some (s', resp) → inv s'.
Proof.
  intros Hinv. destruct q as [ag rnd|key ag|r multer|key filename|qk filename ag];
    simpl.
  - destruct (generate_cases ag rnd s) as (res & n & Hloop & ->).
    apply key_loop_spec in Hloop.
    destruct res as [key|]; simpl; intros [= <- <-]; [|done].
    apply inv_generated; [done|]. apply Hloop.
  - intros [= Heq]. apply (f_equal fst) in Heq. simpl in Heq. subst s'.
    apply inv_status, Hinv.
  - intros [= Heq]. apply (f_equal fst) in Heq. simpl in Heq. subst s'.
    destruct multer as [m|staged]; [done|]. apply inv_upload_handler, Hinv.
  - intros [= Heq]. apply (f_equal fst) in Heq. simpl in Heq. subst s'.
    apply inv_deleteFile, Hinv.
  - intros [= Heq]. apply (f_equal fst) in Heq. simpl in Heq. subst s'.
    apply inv_downloadFile, Hinv.
Qed.

Lemma inv_step s s' : inv s → step s s' → inv s'.
Proof.
  intros Hinv Hstep. destruct Hstep as [s t q s' resp Ht Hdue Hq
                                       |s t o i r messages processed fe Ht Hdue Ho
                                       |s t p Ht Hdue|s id Hdue].
  - eapply inv_handle, Hq. apply inv_set_now; done.
  - eapply inv_same_sessions; [apply same_sessions_upload_item|].
    apply inv_set_now; done.
  - eapply inv_same_sessions; [apply same_sessions_disk|].
    apply inv_set_now; done.
  - apply inv_fire; done.
Qed.

Lemma reachable_inv s : reachable s → inv s.
Proof.
  unfold reachable. revert s. apply rtc_ind_r; [apply inv_init|].
  intros y z _ Hstep IH. eapply inv_step; eauto.
Qed.

End Reachability.

(** ** The demo runs are runs of the process *)

Lemma none_due_compute t s : bool_decide (none_due t s) = true → none_due t s.
Proof. intros H. apply bool_decide_eq_true in H. exact H. Qed.

Lemma next_due_compute id s d cb :
  timers s !! id = Some (d, cb) →
  bool_decide (map_Forall (λ _ dc, d ≤ dc.1) (timers s)) = true →
  next_due id s.
Proof.
  intros H1 H2. exists d, cb. split; [exact H1|].
  apply bool_decide_eq_true in H2. exact H2.
Qed.

Lemma demo_created_reachable : @reachable ascii_lib demo_created.
Proof.
  eapply rtc_r; [apply rtc_refl|].
  apply (step_request init 0 (ReqGenerate demo_kindle demo_draws) _ (RKey demo_key));
    [simpl; lia|apply none_due_compute; vm_compute; reflexivity|].
  vm_compute. reflexivity.
Qed.

Lemma demo_expired_reachable : @reachable ascii_lib demo_expired.
Proof.
  eapply rtc_r; [apply demo_created_reachable|].
  apply step_fire.
  apply (next_due_compute _ _ 600000 (CbRemoveKey demo_key)); vm_compute; reflexivity.
Qed.

Lemma demo_reissued_reachable : @reachable ascii_lib demo_reissued.
Proof.
  eapply rtc_r; [apply demo_expired_reachable|].
  apply (step_request demo_expired 700000 (ReqGenerate demo_kobo demo_draws) _
           (RKey demo_key));
    [vm_compute; discriminate|apply none_due_compute; vm_compute; reflexivity|].
  vm_compute. reflexivity.
Qed.

Lemma demo_polled_reachable : @reachable ascii_lib demo_polled.
Proof.
  eapply rtc_r; [apply demo_reissued_reachable|].
  apply (step_request demo_reissued 1200000 (ReqStatus demo_key demo_kobo) _
           (RStatus 1200000 [] []));
    [vm_compute; discriminate|apply none_due_compute; vm_compute; reflexivity|].
  vm_compute. reflexivity.
Qed.

Lemma demo_staged_reachable : @reachable ascii_lib demo_staged.
Proof.
  eapply rtc_r; [apply demo_created_reachable|].
  apply (step_stage demo_created 1000 (path demo_file));
    [vm_compute; discriminate|apply none_due_compute; vm_compute; reflexivity].
Qed.

Lemma demo_uploaded_reachable : @reachable ascii_lib demo_uploaded.
Proof.
  eapply rtc_r; [apply demo_staged_reachable|].
  apply (step_request demo_staged 2000
           (ReqUpload demo_request (inr [(demo_file, demo_env)])) _
           (@upload ascii_lib demo_request (inr [(demo_file, demo_env)])
              (set_now 2000 demo_staged)).2);
    [vm_compute; discriminate|apply none_due_compute; vm_compute; reflexivity|].
  vm_compute. reflexivity.
Qed.

(** ** The hard cap (C1) *)

(** C1.  A session is registered for at most the hard-cap duration after its
    creation, whatever requests were handled in between: in every reachable
    state the clock has not passed the hard-cap deadline of a registered
    session, no work can be run at or after that deadline while the session
    is still registered, and the hard-cap timer set at its creation is still
    pending, due exactly [maxExpireDuration] seconds after [created], and
    removes the session when it fires. *)
Theorem C1_hard_cap_lifetime {L : JsLib} (s : state) (key : jsstring) (o : loc) (i : info) :
  reachable s → keys s !! key = Some o → heap s !! o = Some i →
  now s ≤ created i + maxExpireDuration * 1000 ∧
  (∀ t, now s ≤ t → none_due t s → t < created i + maxExpireDuration * 1000) ∧
  ∃ h, timers s !! h =
         Some (created i + maxExpireDuration * 1000, CbHardCap key o) ∧
       keys (fire h s) !! key = None.
Proof.
  intros Hreach Hk Hi. pose proof (reachable_inv s Hreach) as Hinv.
  destruct Hinv as [I1 I2 I3 I4 I5].
  destruct (I2 _ _ Hk) as (i0 & t & d & Hi0 & Hti & Htm & h & Hh).
  assert (i0 = i) as -> by congruence.
  split; [eapply I1, Hh|]. split.
  - intros t' _ Hdue. exact (Hdue _ _ Hh).
  - exists h. split; [exact Hh|].
    unfold fire. rewrite Hh. simpl. rewrite bool_decide_eq_true_2 by done.
    destruct (removeKey_live key o i
                (set_now (Z.max (now s) (created i + maxExpireDuration * 1000))
                   (upd_timers (delete h) s))) as (-> & _); [done|done|].
    simpl. apply lookup_delete_eq.
Qed.

Lemma C1_hard_cap_lifetime_witness :
  keys demo_polled !! demo_key = Some 1%nat ∧
  heap demo_polled !! 1%nat = Some demo_info ∧
  now demo_polled ≤ created demo_info + maxExpireDuration * 1000 ∧
  (∀ t, now demo_polled ≤ t → none_due t demo_polled →
        t < created demo_info + maxExpireDuration * 1000) ∧
  ∃ h, timers demo_polled !! h =
         Some (created demo_info + maxExpireDuration * 1000,
               CbHardCap demo_key 1%nat) ∧
       keys (fire h demo_polled) !! demo_key = None.
Proof.
  assert (keys demo_polled !! demo_key = Some 1%nat) as Hk
    by (vm_compute; reflexivity).
  assert (heap demo_polled !! 1%nat = Some demo_info) as Hi
    by (vm_compute; reflexivity).
  split; [exact Hk|]. split; [exact Hi|].
  exact (@C1_hard_cap_lifetime ascii_lib demo_polled demo_key 1%nat demo_info
           demo_polled_reachable Hk Hi).
Defined.

(** ** Key generation (C2) *)

(** C2.  The alphabet has thirty symbols; a key made from a draw below
    [choices] has four characters, all of the alphabet; [generate] always
    returns: with the first candidate among the draws 0 .. size that is not
    registered, which it then registers for a fresh session object next to
    the sessions already there, or with the capacity error and an unchanged
    state when those size + 1 candidates are all registered; and no session
    object is ever registered under two keys. *)
Theorem C2_generated_keys {L : JsLib} :
  length keyChars = 30%nat ∧
  (∀ rnd, (rnd < choices)%N →
     length (randomKey rnd) = keyLength ∧
     Forall (λ c, c ∈ keyChars) (randomKey rnd)) ∧
  (∀ s user_agent rnd, reachable s →
     ∃ s' resp, generate user_agent rnd s = Some (s', resp) ∧
       ((∃ n, (n ≤ size (keys s))%nat ∧ resp = RKey (randomKey (rnd n)) ∧
              (∀ j, (j < n)%nat → is_Some (keys s !! randomKey (rnd j))) ∧
              keys s !! randomKey (rnd n) = None ∧
              keys s' = <[randomKey (rnd n) := next_loc s]> (keys s) ∧
              (∀ k o', keys s !! k = Some o' → o' ≠ next_loc s)) ∨
        (resp = RCapacity ∧ s' = s ∧
         ∀ j, (j ≤ size (keys s))%nat → is_Some (keys s !! randomKey (rnd j))))) ∧
  (∀ s, reachable s → keys_inj s).
Proof.
  split; [reflexivity|]. split; [exact randomKey_shape|]. split.
  - intros s ag rnd Hreach. pose proof (reachable_inv s Hreach) as [I1 I2 I3 I4 I5].
    destruct (generate_cases ag rnd s) as (res & n & Hloop & ->).
    apply key_loop_spec in Hloop. destruct res as [key|].
    + destruct Hloop as (Hn1 & Hn2 & -> & Hfresh & Hbefore).
      eexists _, _. split; [reflexivity|]. left.
      exists (n - 1)%nat. split; [lia|]. split; [reflexivity|].
      split; [|split; [exact Hfresh|split; [reflexivity|]]].
      * intros j Hj. apply Hbefore; lia.
      * intros k o' Hk' ->. destruct (I2 _ _ Hk') as (i' & _ & _ & Hi' & _).
        pose proof (I5 _ _ Hi'). lia.
    + destruct Hloop as (-> & Hbefore).
      eexists _, _. split; [reflexivity|]. right. repeat split.
      intros j Hj. apply Hbefore; lia.
  - intros s Hreach. apply reachable_inv, Hreach.
Qed.

Lemma C2_generated_keys_witness :
  (12345 < choices)%N ∧
  length (randomKey 12345) = keyLength ∧
  Forall (λ c, c ∈ keyChars) (randomKey 12345).
Proof.
  assert (12345 < choices)%N as H by (vm_compute; reflexivity).
  split; [exact H|].
  exact (proj1 (proj2 (@C2_generated_keys ascii_lib)) 12345%N H).
Defined.

(** ** Expiry (C3) *)

(** C3, as the code has it.  When a timer of a registered session fires
    (its [timer], or the hard-cap closure for its object), the session's
    [timer] is cleared, every file record's path is unlinked, the records are
    dropped and the key leaves the registry.  The only timer [removeKey]
    cancels is the session's [timer]: fired by the hard-cap closure it
    cancels the pending renewable timer; fired by the renewable timer it
    leaves the hard-cap timer pending, as it leaves every other timer. *)
Theorem C3_expire_removes_session (s : state) (id t : timer_id) (d : Z)
    (cb : callback) (key : jsstring) (o : loc) (i : info) :
  timers s !! id = Some (d, cb) →
  cb = CbRemoveKey key ∨ cb = CbHardCap key o →
  keys s !! key = Some o → heap s !! o = Some i → timer i = Some t →
  keys (fire id s) = delete key (keys s) ∧
  timers (fire id s) = delete t (delete id (timers s)) ∧
  (∀ h, h ≠ id → h ≠ t → timers (fire id s) !! h = timers s !! h) ∧
  disk (fire id s) = disk s ∖ list_to_set (fr_path <$> files i) ∧
  (∀ f, f ∈ files i → fr_path f ∉ disk (fire id s)) ∧
  heap (fire id s) = <[o := set_files [] i]> (heap s).
Proof.
  intros Hid Hcb Hk Hi Hti.
  set (s0 := set_now (Z.max (now s) d) (upd_timers (delete id) s)).
  assert (fire id s = removeKey key s0) as ->.
  { unfold fire. rewrite Hid. destruct Hcb as [->| ->]; simpl; [reflexivity|].
    rewrite bool_decide_eq_true_2 by done. reflexivity. }
  destruct (removeKey_live key o i s0) as (E1 & E2 & _ & _ & _ & E6 & E7);
    [done|done|].
  rewrite Hti in E2. simpl in E1, E2, E6, E7.
  rewrite E1, E2, E6, E7. repeat split.
  - intros h Hh1 Hh2. rewrite !lookup_delete_ne by done. reflexivity.
  - intros f Hf Hin. apply elem_of_difference in Hin as [_ Hnot].
    apply Hnot. apply elem_of_list_to_set, list_elem_of_fmap. eauto.
Qed.

Lemma C3_expire_removes_session_witness :
  timers demo_uploaded !! 1%nat = Some (3600000, CbHardCap demo_key 0%nat) ∧
  keys demo_uploaded !! demo_key = Some 0%nat ∧
  heap demo_uploaded !! 0%nat = Some demo_info_uploaded ∧
  keys (fire 1%nat demo_uploaded) = delete demo_key (keys demo_uploaded) ∧
  timers (fire 1%nat demo_uploaded) =
    delete 2%nat (delete 1%nat (timers demo_uploaded)) ∧
  (∀ f, f ∈ files demo_info_uploaded →
        fr_path f ∉ disk (fire 1%nat demo_uploaded)).
Proof.
  assert (timers demo_uploaded !! 1%nat = Some (3600000, CbHardCap demo_key 0%nat))
    as Hid by (vm_compute; reflexivity).
  assert (keys demo_uploaded !! demo_key = Some 0%nat) as Hk
    by (vm_compute; reflexivity).
  assert (heap demo_uploaded !! 0%nat = Some demo_info_uploaded) as Hi
    by (vm_compute; reflexivity).
  destruct (C3_expire_removes_session demo_uploaded 1%nat 2%nat 3600000
              (CbHardCap demo_key 0%nat) demo_key 0%nat demo_info_uploaded
              Hid (or_intror eq_refl) Hk Hi eq_refl)
    as (H1 & H2 & _ & _ & H5 & _).
  repeat split; assumption.
Defined.

(** C3, as stated, fails when the renewable timer expires a session: the
    session is removed and its hard-cap timer is still pending. *)
Lemma C3_renewable_expiry_keeps_hard_cap_timer :
  @reachable ascii_lib demo_uploaded ∧
  keys demo_uploaded !! demo_key = Some 0%nat ∧
  timers demo_uploaded !! 2%nat = Some (602000, CbRemoveKey demo_key) ∧
  timers demo_uploaded !! 1%nat = Some (3600000, CbHardCap demo_key 0%nat) ∧
  keys (fire 2%nat demo_uploaded) !! demo_key = None ∧
  timers (fire 2%nat demo_uploaded) !! 1%nat =
    Some (3600000, CbHardCap demo_key 0%nat).
Proof.
  split; [exact demo_uploaded_reachable|].
  repeat split; vm_compute; reflexivity.
Qed.

(** ** Timers of an earlier session (C4) *)

(** C4.  A timer callback for [key] that is neither the [timer] of the
    session now registered under [key] nor the hard-cap closure of that
    session object does nothing when it fires: the timer leaves the pending
    set and the clock moves on, while the registry, the session objects, the
    disk and every other timer stay as they are. *)
Theorem C4_stale_timer_is_noop {L : JsLib} (s : state) (id : timer_id) (d : Z)
    (cb : callback) (key : jsstring) (o : loc) (i : info) :
  reachable s →
  timers s !! id = Some (d, cb) →
  (cb = CbRemoveKey key ∨ ∃ o', cb = CbHardCap key o') →
  keys s !! key = Some o → heap s !! o = Some i →
  timer i ≠ Some id → cb ≠ CbHardCap key o →
  fire id s = set_now (Z.max (now s) d) (upd_timers (delete id) s).
Proof.
  intros Hreach Hid Hcb Hk Hi Hown Hcap.
  pose proof (reachable_inv s Hreach) as [I1 I2 I3 I4 I5].
  unfold fire. rewrite Hid. destruct Hcb as [->|[o' ->]].
  - destruct (I4 _ _ _ Hid) as (o1 & i1 & Hk1 & Hi1 & Ht1). congruence.
  - simpl. rewrite bool_decide_eq_false_2; [reflexivity|].
    intros Heq. apply Hcap. congruence.
Qed.

Lemma C4_stale_timer_is_noop_witness :
  timers demo_polled !! 1%nat = Some (3600000, CbHardCap demo_key 0%nat) ∧
  keys demo_polled !! demo_key = Some 1%nat ∧
  fire 1%nat demo_polled =
    set_now (Z.max (now demo_polled) 3600000) (upd_timers (delete 1%nat) demo_polled).
Proof.
  assert (timers demo_polled !! 1%nat = Some (3600000, CbHardCap demo_key 0%nat))
    as Hid by (vm_compute; reflexivity).
  assert (keys demo_polled !! demo_key = Some 1%nat) as Hk
    by (vm_compute; reflexivity).
  assert (heap demo_polled !! 1%nat = Some demo_info) as Hi
    by (vm_compute; reflexivity).
  split; [exact Hid|]. split; [exact Hk|].
  apply (@C4_stale_timer_is_noop ascii_lib demo_polled 1%nat 3600000
           (CbHardCap demo_key 0%nat) demo_key 1%nat demo_info
           demo_polled_reachable Hid (or_intror (ex_intro _ 0%nat eq_refl)) Hk Hi).
  - vm_compute. discriminate.
  - vm_compute. discriminate.
Defined.

(** ** The key of an upload (C5) *)

Lemma trim_nil : trim [] = [].
Proof. reflexivity. Qed.






(** ** Validation of an uploaded item (C6) *)

Lemma fileFilter_pass {L : JsLib} (s : state) (hdr : jsval) (file : upload_file) :
  fileFilter s hdr file = None →
  extension_allowed file = true ∧
  (arr_includes (mimetype file) allowedTypes = true ∨ mimetype file = OCTET_STREAM).
Proof.
  unfold fileFilter, extension_allowed.
  destruct (key_of hdr) as [[|c key]|]; [discriminate| |discriminate].
  case_bool_decide; [discriminate|].
  destruct (arr_includes (tail _) allowedExtensions); [|rewrite orb_true_r; discriminate].
  destruct (arr_includes (mimetype file) allowedTypes); [auto|].
  case_bool_decide as Hoct; simpl; [discriminate|].
  intros _. split; [reflexivity|]. right.
  destruct (decide (mimetype file = OCTET_STREAM)); [done|]. contradiction.
Qed.






(** ** Converters (C7) *)

Lemma not_elem_of_unlink (p q : jsstring) (s : state) :
  p = q ∨ p ∉ disk s → p ∉ disk (unlink q s).
Proof.
  intros H Hin. simpl in Hin. apply elem_of_difference in Hin as [Hin Hq].
  destruct H as [->|H]; [|done]. apply Hq, elem_of_singleton. reflexivity.
Qed.

Lemma epub_allowed : arr_includes TYPE_EPUB allowedTypes = true.
Proof. vm_compute. reflexivity. Qed.

Lemma processFile_kindlegen {L : JsLib} (file : upload_file) ag r e s :
  effective_type file e = TYPE_EPUB →
  includes (js "Kindle") ag = true → body_kindlegen r = true →
  processFile file ag r e s =
    (unlink (replace_suffix_ci (js ".epub") (js ".mobi8") (path file))
       (unlink (path file) (after_run e s)),
     match spawned e with
     | SpawnError err => inl (js "kindlegen error: " +++ err)
     | SpawnClose code output written =>
         if bool_decide (code ≠ Some 0%N) && bool_decide (code ≠ Some 1%N) then
           inl (js "kindlegen error code: " +++ code_string code
                +++ [10%N] +++ output)
         else
           inr {| fr_name :=
                    replace_suffix_ci (js ".epub") (js ".mobi")
                      (replace_suffix_ci (js ".kepub.epub") (js ".epub")
                         (display_name ag r file));
                  fr_path := replace_suffix_ci (js ".epub") (js ".mobi") (path file);
                  fr_uploaded := now s;
                  fr_conversion := Some Kindlegen |}
     end).
Proof.
  intros Htype Hag Hflag. unfold processFile, after_run.
  rewrite Htype, epub_allowed, Hag, Hflag, andb_false_r.
  rewrite bool_decide_eq_true_2 by done. simpl.
  destruct (spawned e) as [err|code output written]; [reflexivity|].
  destruct (_ && _); reflexivity.
Qed.

Lemma processFile_kepubify {L : JsLib} (file : upload_file) ag r e s :
  effective_type file e = TYPE_EPUB →
  includes (js "Kindle") ag && body_kindlegen r = false →
  includes (js "Kobo") ag = true → body_kepubify r = true →
  processFile file ag r e s =
    (unlink (path file) (after_run e s),
     match spawned e with
     | SpawnError err => inl (js "kepubify error: " +++ err)
     | SpawnClose code output written =>
         if bool_decide (code ≠ Some 0%N) then
           inl (js "Kepubify error code: " +++ code_string code
                +++ [10%N] +++ output)
         else
           inr {| fr_name :=
                    replace_suffix_ci (js ".epub") (js ".kepub.epub")
                      (replace_suffix_ci (js ".kepub.epub") (js ".epub")
                         (display_name ag r file));
                  fr_path :=
                    replace_suffix_ci (js ".epub") (js ".kepub.epub") (path file);
                  fr_uploaded := now s;
                  fr_conversion := Some Kepubify |}
     end).
Proof.
  intros Htype Hnot Hag Hflag. unfold processFile, after_run.
  rewrite Htype, epub_allowed, andb_false_r.
  rewrite bool_decide_eq_true_2 by done.
  rewrite !andb_true_l. rewrite Hnot, Hag, Hflag. simpl.
  destruct (spawned e) as [err|code output written]; [reflexivity|].
  destruct (bool_decide _); reflexivity.
Qed.

(** C7.  For an EPUB sent to a Kindle with the kindlegen flag, [processFile]
    returns a record exactly when the converter closes with code 0 or 1, and
    throws for every other code, for a signal, and when the process cannot
    be launched; in all cases the input path and the [.mobi8] path next to
    it are gone from the disk.  For an EPUB sent to a Kobo with the kepubify
    flag it returns a record exactly when the converter closes with code 0,
    and the input path is gone in all cases.  What [processFile] throws
    becomes one failure line of the upload, and no record is stored. *)
Theorem C7_converter_exit_codes {L : JsLib} (file : upload_file) (ag : jsstring)
    (r : upload_request) (e : file_env) (s : state) :
  effective_type file e = TYPE_EPUB →
  (includes (js "Kindle") ag = true → body_kindlegen r = true →
   (path file ∉ disk (processFile file ag r e s).1) ∧
   (replace_suffix_ci (js ".epub") (js ".mobi8") (path file)
      ∉ disk (processFile file ag r e s).1) ∧
   ((∃ rec, (processFile file ag r e s).2 = inr rec) ↔
    (∃ code output written,
       spawned e = SpawnClose (Some code) output written ∧
       (code = 0 ∨ code = 1)%N)) ∧
   (∀ rec, (processFile file ag r e s).2 = inr rec →
      fr_conversion rec = Some Kindlegen ∧
      fr_path rec = replace_suffix_ci (js ".epub") (js ".mobi") (path file))) ∧
  (includes (js "Kindle") ag && body_kindlegen r = false →
   includes (js "Kobo") ag = true → body_kepubify r = true →
   (path file ∉ disk (processFile file ag r e s).1) ∧
   ((∃ rec, (processFile file ag r e s).2 = inr rec) ↔
    (∃ output written, spawned e = SpawnClose (Some 0%N) output written)) ∧
   (∀ rec, (processFile file ag r e s).2 = inr rec →
      fr_conversion rec = Some Kepubify ∧
      fr_path rec =
        replace_suffix_ci (js ".epub") (js ".kepub.epub") (path file))) ∧
  (∀ o messages processed s' msg,
     size_bytes file ≠ 0%N → processFile file ag r e s = (s', inl msg) →
     upload_item o ag r (s, messages, processed) (file, e) =
       (unlink (path file) s',
        messages ++
          [CROSS +++ js " Error processing " +++ originalname file +++ js ": "
             +++ msg],
        processed)).
Proof.
  intros Htype. split; [|split].
  - intros Hag Hflag. rewrite (processFile_kindlegen file ag r e s Htype Hag Hflag).
    cbn [fst snd].
    split; [apply not_elem_of_unlink; right; apply not_elem_of_unlink; by left|].
    split; [apply not_elem_of_unlink; by left|].
    destruct (spawned e) as [err|[code|] output written].
    + split; [|discriminate]. split.
      * intros [rec Hrec]. discriminate.
      * intros (code & output & written & Hs & _). discriminate.
    + destruct (decide (code = 0%N)) as [->|Hne0];
        [|destruct (decide (code = 1%N)) as [->|Hne1]].
      * simpl. split; [split; eauto 10|]. intros rec [= <-]. done.
      * simpl. split; [split; eauto 10|]. intros rec [= <-]. done.
      * rewrite !bool_decide_eq_true_2 by congruence. simpl.
        split; [|discriminate]. split.
        -- intros [rec Hrec]. discriminate.
        -- intros (c & o' & w & [= -> _ _] & [->| ->]); done.
    + simpl. split; [|discriminate]. split.
      * intros [rec Hrec]. discriminate.
      * intros (c & o' & w & [=] & _).
  - intros Hnot Hag Hflag.
    rewrite (processFile_kepubify file ag r e s Htype Hnot Hag Hflag).
    cbn [fst snd].
    split; [apply not_elem_of_unlink; by left|].
    destruct (spawned e) as [err|code output written].
    + split; [|discriminate]. split.
      * intros [rec Hrec]. discriminate.
      * intros (output & written & Hs). discriminate.
    + destruct (decide (code = Some 0%N)) as [->|Hne].
      * simpl. split; [split; eauto|]. intros rec [= <-]. done.
      * rewrite bool_decide_eq_true_2 by done.
        split; [|discriminate]. split.
        -- intros [rec Hrec]. discriminate.
        -- intros (o' & w & [= -> _ _]). done.
  - intros o messages processed s' msg Hsize Hproc.
    unfold upload_item. rewrite (proj2 (N.eqb_neq _ _) Hsize), Hproc. reflexivity.
Qed.

Lemma C7_converter_exit_codes_witness :
  effective_type demo_file demo_env = TYPE_EPUB ∧
  (path demo_file
     ∉ disk (@processFile ascii_lib demo_file demo_kindle demo_convert demo_env
               demo_staged).1) ∧
  ∃ rec, (@processFile ascii_lib demo_file demo_kindle demo_convert demo_env
            demo_staged).2 = inr rec.
Proof.
  assert (effective_type demo_file demo_env = TYPE_EPUB) as Htype
    by (vm_compute; reflexivity).
  destruct (@C7_converter_exit_codes ascii_lib demo_file demo_kindle demo_convert
              demo_env demo_staged Htype) as [Hkindle _].
  assert (includes (js "Kindle") demo_kindle = true) as Hag
    by (vm_compute; reflexivity).
  destruct (Hkindle Hag eq_refl) as (Hgone & _ & Hcode & _).
  split; [exact Htype|]. split; [exact Hgone|].
  apply Hcode. exists 1%N, (js "Warning(prcgen):W14001"),
    {[ js "uploads/files-1.mobi"; js "uploads/files-1.mobi8" ]}.
  split; [reflexivity|]. right. reflexivity.
Defined.

(** ** The device check (C8) *)




(** ** Renewal (C9) *)

(** C9, as the code has it.  [expireKey] always schedules a new [removeKey]
    timer for the key, ten minutes from now, and returns its handle.  For a
    registered key it also cancels the session's previous [timer] and stores
    the new handle and the current time in the session object, whose other
    fields, like the registry and every other session, stay as they are; in
    a reachable state the previous timer was pending, and is replaced by the
    new one.  For a key that is not registered the new timer is the only
    change. *)
Theorem C9_expireKey_touch {L : JsLib} (s : state) (key : jsstring) :
  (expireKey key s).1 = next_timer s ∧
  keys (expireKey key s).2 = keys s ∧
  disk (expireKey key s).2 = disk s ∧
  now (expireKey key s).2 = now s ∧
  (∀ o i, keys s !! key = Some o → heap s !! o = Some i →
     timers (expireKey key s).2 =
       match timer i with
       | Some t =>
           delete t (<[next_timer s := (now s + expireDelay * 1000, CbRemoveKey key)]>
                       (timers s))
       | None =>
           <[next_timer s := (now s + expireDelay * 1000, CbRemoveKey key)]> (timers s)
       end ∧
     heap (expireKey key s).2 =
       <[o := {| created := created i; agent := agent i; files := files i;
                 urls := urls i; timer := Some (next_timer s);
                 alive := now s |}]> (heap s) ∧
     (reachable s →
      ∃ t d, timer i = Some t ∧ timers s !! t = Some (d, CbRemoveKey key) ∧
             timers (expireKey key s).2 !! t = None ∧
             timers (expireKey key s).2 !! next_timer s =
               Some (now s + expireDelay * 1000, CbRemoveKey key))) ∧
  (keys s !! key = None →
     timers (expireKey key s).2 =
       <[next_timer s := (now s + expireDelay * 1000, CbRemoveKey key)]> (timers s) ∧
     heap (expireKey key s).2 = heap s).
Proof.
  unfold expireKey.
  destruct (get_info s key) as [[o i]|] eqn:Hget.
  - apply get_info_Some in Hget as [Hk Hi]. simpl.
    split; [reflexivity|].
    split; [destruct (timer i); reflexivity|].
    split; [destruct (timer i); reflexivity|].
    split; [destruct (timer i); reflexivity|].
    split; [|congruence].
    intros o' i' Hk' Hi'. assert (o' = o) as -> by congruence.
    assert (i' = i) as -> by congruence.
    split; [destruct (timer i); reflexivity|].
    split; [destruct (timer i); reflexivity|].
    intros Hreach. apply reachable_inv in Hreach as [I1 I2 I3 I4 I5].
    destruct (I2 _ _ Hk) as (i0 & t & d & Hi0 & Hti & Htm & _).
    assert (i0 = i) as -> by congruence.
    exists t, d. rewrite Hti. simpl. repeat split; [done|apply lookup_delete_eq|].
    destruct (I1 _ _ _ Htm). rewrite lookup_delete_ne by lia.
    apply lookup_insert_eq.
  - simpl. do 4 (split; [reflexivity|]). split; [|done].
    intros o i Hk Hi. rewrite (proj2 (get_info_Some s key o i)) in Hget by done.
    discriminate.
Qed.

Lemma C9_expireKey_touch_witness :
  keys demo_uploaded !! demo_key = Some 0%nat ∧
  heap demo_uploaded !! 0%nat = Some demo_info_uploaded ∧
  timers (expireKey demo_key demo_uploaded).2 !! 2%nat = None ∧
  timers (expireKey demo_key demo_uploaded).2 !! next_timer demo_uploaded =
    Some (now demo_uploaded + expireDelay * 1000, CbRemoveKey demo_key).
Proof.
  assert (keys demo_uploaded !! demo_key = Some 0%nat) as Hk
    by (vm_compute; reflexivity).
  assert (heap demo_uploaded !! 0%nat = Some demo_info_uploaded) as Hi
    by (vm_compute; reflexivity).
  destruct (@C9_expireKey_touch ascii_lib demo_uploaded demo_key)
    as (_ & _ & _ & _ & Hreg & _).
  destruct (Hreg _ _ Hk Hi) as (_ & _ & Hre).
  destruct (Hre demo_uploaded_reachable) as (t & d & Ht & _ & H1 & H2).
  injection Ht as <-.
  repeat split; assumption.
Defined.

(** C9, as stated, fails for a key that is not registered: the set of
    pending timers grows by one. *)
Lemma C9_touch_of_unknown_key_schedules_timer :
  keys init !! js "ABCD" = None ∧
  timers init !! 0%nat = None ∧
  timers (expireKey (js "ABCD") init).2 !! 0%nat =
    Some (600000, CbRemoveKey (js "ABCD")).
Proof. repeat split; vm_compute; reflexivity. Qed.

(** ** Display names on a Kindle (C10) *)

(** C10.  The name [processFile] stores is the display name of lines
    383-384 with the extension rewritten as its branch does.  For a session
    whose user agent contains Kindle, the display name is the (sanitised,
    transliterated when asked) name with every code unit that is not a word
    character, a dot, a hyphen, a double or single quote or a parenthesis
    replaced by an underscore, and the others kept in place; for every other
    session it is that name itself. *)
Theorem C10_kindle_display_name {L : JsLib} (file : upload_file) (ag : jsstring)
    (r : upload_request) (e : file_env) (s s' : state) (rec : file_record) :
  processFile file ag r e s = (s', inr rec) →
  let name :=
    if body_transliteration r then sanitize (doTransliterate (originalname file))
    else originalname file in
  (includes (js "Kindle") ag = true →
   length (display_name ag r file) = length name ∧
   ∀ k c, name !! k = Some c →
     display_name ag r file !! k = Some (if kindle_safe c then c else 95%N)) ∧
  (includes (js "Kindle") ag = false → display_name ag r file = name) ∧
  (∀ c, kindle_safe c = true ↔
        (48 ≤ c ≤ 57 ∨ 65 ≤ c ≤ 90 ∨ 97 ≤ c ≤ 122 ∨ c = 95 ∨ c = 46 ∨ c = 45 ∨
         c = 34 ∨ c = 39 ∨ c = 40 ∨ c = 41)%N) ∧
  fr_name rec =
    match fr_conversion rec with
    | None =>
        replace_suffix_ci (js ".pdf") (js ".pdf")
          (replace_suffix_ci (js ".epub") (js ".epub") (display_name ag r file))
    | Some Kindlegen =>
        replace_suffix_ci (js ".epub") (js ".mobi")
          (replace_suffix_ci (js ".kepub.epub") (js ".epub")
             (display_name ag r file))
    | Some Kepubify =>
        replace_suffix_ci (js ".epub") (js ".kepub.epub")
          (replace_suffix_ci (js ".kepub.epub") (js ".epub")
             (display_name ag r file))
    end.
Proof.
  intros Hproc name. split; [|split; [|split]].
  - intros Hag. unfold display_name. fold name. rewrite Hag.
    unfold kindle_replace. split; [apply length_map|].
    intros k c Hk. rewrite list_lookup_fmap, Hk. reflexivity.
  - intros Hag. unfold display_name. fold name. rewrite Hag. reflexivity.
  - intros c. unfold kindle_safe, is_word.
    rewrite !orb_true_iff, !andb_true_iff, !N.leb_le, !N.eqb_eq. tauto.
  - revert Hproc. unfold processFile.
    repeat match goal with
           | |- context [if ?b then _ else _] => destruct b
           | |- context [match spawned ?e with _ => _ end] => destruct (spawned e)
           end; intros [= <- <-] || discriminate; reflexivity.
Qed.

Lemma C10_kindle_display_name_witness :
  @processFile ascii_lib demo_file demo_kindle demo_request demo_env
    (set_now 2000 demo_staged) = (set_now 2000 demo_staged, inr demo_record) ∧
  @display_name ascii_lib demo_kindle demo_request demo_file !! 2%nat = Some 95%N ∧
  fr_name demo_record =
    replace_suffix_ci (js ".pdf") (js ".pdf")
      (replace_suffix_ci (js ".epub") (js ".epub")
         (@display_name ascii_lib demo_kindle demo_request demo_file)).
Proof.
  assert (@processFile ascii_lib demo_file demo_kindle demo_request demo_env
            (set_now 2000 demo_staged) = (set_now 2000 demo_staged, inr demo_record))
    as Hproc by (vm_compute; reflexivity).
  destruct (@C10_kindle_display_name ascii_lib demo_file demo_kindle demo_request
              demo_env _ _ _ Hproc) as (Hkindle & _ & _ & Hname).
  split; [exact Hproc|]. split; [|exact Hname].
  assert (includes (js "Kindle") demo_kindle = true) as Hag
    by (vm_compute; reflexivity).
  destruct (Hkindle Hag) as [_ Hchars].
  apply (Hchars 2%nat 32%N). vm_compute. reflexivity.
Defined.

(* ================================================================= *)
(** * Further properties of the code *)

(** ** Keys spell their draws *)

Lemma digit_round_trip_ok (d : N) : (d < 30)%N → digit_round_trip d = true.
Proof.
  intros Hd.
  assert (forallb (λ k, digit_round_trip (N.of_nat k)) (seq 0 30) = true)
    as Hall by (vm_compute; reflexivity).
  rewrite forallb_forall in Hall.
  rewrite <- (N2Nat.id d). apply Hall. apply in_seq. lia.
Qed.

Lemma key_value_digits (ds : list N) (acc : N) :
  Forall (λ d, (d < 30)%N) ds →
  key_value acc
    (join_chars
       (List.map (λ chr, keyChars_at (parseInt_char (N.of_nat (length keyChars)) chr))
          (List.map digit_char ds))) =
  Some (digits_value 30 acc ds).
Proof.
  intros Hds. revert acc. induction Hds as [|d ds Hd _ IH]; intros acc; [reflexivity|].
  pose proof (digit_round_trip_ok d Hd) as Hrt. unfold digit_round_trip in Hrt.
  cbn [List.map]. unfold join_chars in *. cbn [omap].
  destruct (keyChars_at _) as [c|]; [|discriminate].
  apply bool_decide_eq_true in Hrt.
  change (key_value acc (c :: omap id
            (List.map (λ chr, keyChars_at
               (parseInt_char (N.of_nat (length keyChars)) chr))
               (List.map digit_char ds))) =
          Some (digits_value 30 (acc * 30 + d) ds)).
  cbn [key_value]. rewrite Hrt. apply IH.
Qed.

Lemma digits_value_zeros (radix : N) (k : nat) (ds : list N) :
  digits_value radix 0 (repeat 0%N k ++ ds) = digits_value radix 0 ds.
Proof. induction k as [|k IH]; [reflexivity|]. simpl. exact IH. Qed.

Lemma key_value_randomKey (rnd : N) :
  key_value 0 (randomKey rnd) = Some rnd.
Proof.
  unfold randomKey, padStart0, toString.
  set (ds := to_digits (N.size_nat rnd) (N.of_nat (length keyChars)) rnd).
  replace (repeat 48%N (keyLength - length (List.map digit_char ds)))
    with (List.map digit_char (repeat 0%N (keyLength - length (List.map digit_char ds))))
    by (rewrite map_repeat; reflexivity).
  rewrite <- map_app.
  rewrite key_value_digits.
  - rewrite digits_value_zeros. f_equal. apply (toString_digits 30 rnd). lia.
  - apply Forall_app. split.
    + apply Forall_forall. intros d Hd. apply list_elem_of_In, repeat_spec in Hd.
      subst d. lia.
    + apply (to_digits_bound 30). lia.
Qed.

(** X1.  A key spells its draw in the alphabet: reading the characters of
    [randomKey rnd] back as base-30 digits gives [rnd], whatever the draw; so
    two draws that differ give two keys that differ. *)
Theorem X1_randomKey_round_trip :
  (∀ rnd, key_value 0 (randomKey rnd) = Some rnd) ∧
  (∀ rnd1 rnd2, randomKey rnd1 = randomKey rnd2 → rnd1 = rnd2).
Proof.
  split; [exact key_value_randomKey|].
  intros rnd1 rnd2 Heq.
  pose proof (key_value_randomKey rnd1) as H1.
  rewrite Heq, key_value_randomKey in H1. congruence.
Qed.

(** ** Changes of files and urls only *)

Lemma same_but_lists_refl i : same_but_lists i i.
Proof. repeat split. done. Qed.

Lemma lists_only_refl s : lists_only s s.
Proof.
  repeat split. intros o. destruct (heap s !! o); constructor.
  apply same_but_lists_refl.
Qed.

Lemma lists_only_trans s1 s2 s3 :
  lists_only s1 s2 → lists_only s2 s3 → lists_only s1 s3.
Proof.
  intros (?&?&?&?&?&H12) (?&?&?&?&?&H23). repeat split; try congruence.
  intros o. specialize (H12 o). specialize (H23 o).
  destruct H12 as [i1 i2 (?&?&?&?&?)|]; inversion H23 as [? i3 (?&?&?&?&?)|];
    subst; constructor. repeat split; try congruence. auto.
Qed.

Lemma lists_only_disk f s : lists_only s (upd_disk f s).
Proof.
  repeat split. intros o. simpl. destruct (heap s !! o); constructor.
  apply same_but_lists_refl.
Qed.

Lemma lists_only_unlink p s : lists_only s (unlink p s).
Proof. apply lists_only_disk. Qed.

Lemma lists_only_alter (f : info → info) o s :
  (∀ i, heap s !! o = Some i → same_but_lists i (f i)) →
  lists_only s (upd_heap (alter f o) s).
Proof.
  intros Hf. repeat split. intros o'. simpl.
  destruct (decide (o = o')) as [->|Hne].
  - rewrite lookup_alter_eq. destruct (heap s !! o') eqn:E; constructor.
    apply Hf. reflexivity.
  - rewrite lookup_alter_ne by done. destruct (heap s !! o'); constructor.
    apply same_but_lists_refl.
Qed.

Lemma lists_only_push_file o r s : lists_only s (push_file o r s).
Proof. apply lists_only_alter. intros i _. repeat split. done. Qed.

Lemma lists_only_push_url o u i s :
  heap s !! o = Some i → u ∉ urls i → lists_only s (push_url o u s).
Proof.
  intros Hi Hu. apply lists_only_alter. intros i' Hi'.
  assert (i' = i) as -> by congruence.
  repeat split. simpl. intros Hnd. apply NoDup_app. repeat split; [done| |].
  - intros x Hx Hx'. apply list_elem_of_singleton in Hx'. subst x. done.
  - apply NoDup_singleton.
Qed.

Lemma lists_only_insert o i i' s :
  heap s !! o = Some i → same_but_lists i i' →
  lists_only s (upd_heap (<[o := i']>) s).
Proof.
  intros Ho Hc. repeat split. intros o'. simpl.
  destruct (decide (o = o')) as [->|Hne].
  - rewrite lookup_insert_eq, Ho. constructor. exact Hc.
  - rewrite lookup_insert_ne by done. destruct (heap s !! o'); constructor.
    apply same_but_lists_refl.
Qed.

Lemma lists_only_unlink_all l s : lists_only s (unlink_all l s).
Proof.
  unfold unlink_all. revert s. induction l as [|fe l IH]; intros s; simpl.
  - apply lists_only_refl.
  - eapply lists_only_trans; [apply (lists_only_unlink (path fe.1))|apply IH].
Qed.

Section ListsOnly.
Context {L : JsLib}.

Lemma lists_only_processFile file ag r e s :
  lists_only s (processFile file ag r e s).1.
Proof.
  unfold processFile.
  repeat match goal with
         | |- context [if ?b then _ else _] => destruct b
         | |- context [match spawned ?e with _ => _ end] => destruct (spawned e)
         end; simpl;
    repeat first [ apply lists_only_refl
                 | eapply lists_only_trans; [|apply lists_only_unlink]
                 | eapply lists_only_trans; [|apply lists_only_disk] ].
Qed.

Lemma lists_only_upload_item o ag r s messages processed fe :
  lists_only s (upload_item o ag r (s, messages, processed) fe).1.1.
Proof.
  unfold upload_item. destruct fe as [file e].
  destruct (size_bytes file =? 0)%N; simpl; [apply lists_only_unlink|].
  pose proof (lists_only_processFile file ag r e s) as Hp.
  destruct (processFile file ag r e s) as [s1 [err|rec]]; simpl in *.
  - eapply lists_only_trans; [exact Hp|apply lists_only_unlink].
  - eapply lists_only_trans; [exact Hp|apply lists_only_push_file].
Qed.

Lemma lists_only_upload_loop o ag r staged acc :
  lists_only acc.1.1 (foldl (upload_item o ag r) acc staged).1.1.
Proof.
  revert acc. induction staged as [|fe l IH]; intros acc; simpl.
  - apply lists_only_refl.
  - eapply lists_only_trans; [|apply IH].
    destruct acc as [[s m] n]. apply lists_only_upload_item.
Qed.

Lemma lists_only_deleteFile key filename s :
  lists_only s (deleteFile key filename s).1.
Proof.
  unfold deleteFile.
  destruct (get_info s _) as [[o i]|] eqn:Hget; [|apply lists_only_refl].
  apply get_info_Some in Hget as [Hk Hi].
  destruct (remove_first filename (files i)) as [[file rest]|];
    [|apply lists_only_refl].
  simpl. eapply lists_only_trans; [apply (lists_only_unlink (fr_path file))|].
  apply (lists_only_insert o i); [done|]. repeat split. done.
Qed.

End ListsOnly.

Lemma inv2_lists_only s s' : lists_only s s' → inv2 s → inv2 s'.
Proof.
  intros (Hk & Ht & Hnt & Hnl & Hnow & Hh) [J1 J2 J3]. split.
  - intros key o i'. rewrite Hk. intros Hkey Hi'.
    specialize (Hh o). rewrite Hi' in Hh.
    inversion Hh as [i ? (Hc & _ & Htt & Ha & _) Hx Hy|]. symmetry in Hx.
    destruct (J1 _ _ _ Hkey Hx) as (t & Hti & Htm & H1 & H2).
    exists t. rewrite Ht, Hnow, Hc, Ha, Htt. done.
  - intros o i' Hi'. specialize (Hh o). rewrite Hi' in Hh.
    inversion Hh as [i ? (_ & _ & _ & _ & Hnd) Hx Hy|]. symmetry in Hx.
    apply Hnd. eapply J2, Hx.
  - intros id d key o. rewrite Ht, Hnl. apply J3.
Qed.

Lemma inv2_init : inv2 init.
Proof.
  split.
  - intros key o i H. simpl in H. rewrite lookup_empty in H. discriminate.
  - intros o i H. simpl in H. rewrite lookup_empty in H. discriminate.
  - intros id d key o H. simpl in H. rewrite lookup_empty in H. discriminate.
Qed.

Lemma inv2_set_now t s : now s ≤ t → inv2 s → inv2 (set_now t s).
Proof.
  intros Ht [J1 J2 J3]. split; try done.
  intros key o i Hk Hi. destruct (J1 _ _ _ Hk Hi) as (t' & ? & ? & ? & ?).
  exists t'. simpl in *. repeat split; try done. lia.
Qed.

Lemma inv2_expireKey key o i s :
  inv s → inv2 s → keys s !! key = Some o → heap s !! o = Some i →
  inv2 (expireKey key s).2.
Proof.
  intros [I1 I2 I3 I4 I5] [J1 J2 J3] Hk Hi.
  destruct (J1 _ _ _ Hk Hi) as (t & Hti & Htm & Hca & Han).
  rewrite (expireKey_Some key o i) by (apply get_info_Some; done).
  rewrite Hti. destruct (I1 _ _ _ Htm) as [Htlt _].
  split.
  - intros key' o' i'. simpl. intros Hk' Hi'.
    destruct (decide (o' = o)) as [->|Hone].
    + assert (key' = key) as -> by (eapply I3; eauto).
      rewrite lookup_insert_eq in Hi'. injection Hi' as <-.
      exists (next_timer s). simpl. repeat split; [|lia|lia].
      rewrite lookup_delete_ne by lia. apply lookup_insert_eq.
    + rewrite lookup_insert_ne in Hi' by done.
      destruct (J1 _ _ _ Hk' Hi') as (t' & Hti' & Htm' & ? & ?).
      destruct (I1 _ _ _ Htm').
      exists t'. repeat split; try done.
      rewrite lookup_delete_ne, lookup_insert_ne; [done|lia|].
      intros ->. rewrite Htm in Htm'. injection Htm' as _ ->.
      apply Hone. congruence.
  - intros o' i'. simpl. intros Hi'.
    apply lookup_insert_Some in Hi' as [[_ <-]|[_ Hi']]; [simpl|]; eauto.
  - intros id d key' o'. simpl. intros Hid.
    apply lookup_delete_Some in Hid as [Hne Hid].
    apply lookup_insert_Some in Hid as [[_ [=]]|[Hne' Hid]].
    destruct (J3 _ _ _ _ Hid) as [Hlt Huniq]. split; [done|].
    intros id' d' key'' Hid'.
    apply lookup_delete_Some in Hid' as [_ Hid'].
    apply lookup_insert_Some in Hid' as [[_ [=]]|[_ Hid']]. eauto.
Qed.

Lemma inv2_generated ag key s :
  inv s → inv2 s → keys s !! key = None → inv2 (generated ag key s).
Proof.
  intros [I1 I2 I3 I4 I5] [J1 J2 J3] Hfresh. split.
  - intros key' o' i'. simpl. intros Hk' Hi'.
    apply lookup_insert_Some in Hk' as [[<- <-]|[Hne Hk']].
    + rewrite lookup_insert_eq in Hi'. injection Hi' as <-.
      exists (next_timer s). simpl. repeat split; [|lia|lia].
      rewrite lookup_insert_ne by lia. apply lookup_insert_eq.
    + destruct (I2 _ _ Hk') as (i0 & _ & _ & Hi0 & _).
      pose proof (I5 _ _ Hi0).
      rewrite lookup_insert_ne in Hi' by lia.
      destruct (J1 _ _ _ Hk' Hi') as (t' & Hti' & Htm' & ? & ?).
      destruct (I1 _ _ _ Htm').
      exists t'. repeat split; try done.
      rewrite !lookup_insert_ne by lia. done.
  - intros o' i'. simpl. intros Hi'.
    apply lookup_insert_Some in Hi' as [[_ <-]|[_ Hi']]; [simpl; constructor|eauto].
  - intros id d key' o'. simpl. intros Hid.
    apply lookup_insert_Some in Hid as [[<- [= <- <- <-]]|[Hne Hid]].
    + split; [lia|]. intros id' d' key'' Hid'.
      apply lookup_insert_Some in Hid' as [[<- _]|[_ Hid']]; [done|].
      apply lookup_insert_Some in Hid' as [[_ [=]]|[_ Hid']].
      destruct (J3 _ _ _ _ Hid'). lia.
    + apply lookup_insert_Some in Hid as [[_ [=]]|[Hne' Hid]].
      destruct (J3 _ _ _ _ Hid) as [Hlt Huniq]. split; [lia|].
      intros id' d' key'' Hid'.
      apply lookup_insert_Some in Hid' as [[<- [= _ _ Ho]]|[_ Hid']]; [lia|].
      apply lookup_insert_Some in Hid' as [[_ [=]]|[_ Hid']]. eauto.
Qed.

(** Sessions and timers are only taken away. *)
Lemma inv2_shrink s s' :
  inv s → inv2 s →
  keys s' ⊆ keys s → timers s' ⊆ timers s →
  next_loc s' = next_loc s → now s ≤ now s' →
  (∀ o, option_Forall2 same_but_lists (heap s !! o) (heap s' !! o)) →
  (∀ key o t d, keys s' !! key = Some o →
     timers s !! t = Some (d, CbRemoveKey key) →
     timers s' !! t = Some (d, CbRemoveKey key)) →
  inv2 s'.
Proof.
  intros [I1 I2 I3 I4 I5] [J1 J2 J3] Hk Ht Hnl Hnow Hh HA. split.
  - intros key o i' Hkey Hi'.
    specialize (Hh o). rewrite Hi' in Hh.
    inversion Hh as [i ? (Hc & _ & Htt & Ha & _) Hx Hy|]. symmetry in Hx.
    destruct (J1 key o i) as (t & Hti & Htm & H1 & H2);
      [eapply lookup_weaken; eauto|done|].
    exists t. rewrite Hc, Ha, Htt. repeat split; [done| |done|lia].
    eapply HA; eauto.
  - intros o i' Hi'. specialize (Hh o). rewrite Hi' in Hh.
    inversion Hh as [i ? (_ & _ & _ & _ & Hnd) Hx Hy|]. symmetry in Hx.
    apply Hnd. eapply J2, Hx.
  - intros id d key o Hid. rewrite Hnl.
    destruct (J3 id d key o) as [Hlt Huniq]; [eapply lookup_weaken; eauto|].
    split; [done|]. intros id' d' key' Hid'.
    eapply Huniq. eapply lookup_weaken; eauto.
Qed.

Lemma inv2_fire id s : inv s → inv2 s → next_due id s → inv2 (fire id s).
Proof.
  intros Hinv Hinv2 (d & cb & Hid & Hmin). pose proof Hinv as [I1 I2 I3 I4 I5].
  unfold fire. rewrite Hid.
  set (s0 := set_now (Z.max (now s) d) (upd_timers (delete id) s)).
  destruct cb as [key|key o]; simpl.
  - destruct (I4 _ _ _ Hid) as (o & i & Hk & Hi & Hti).
    destruct (removeKey_live key o i s0) as (E1 & E2 & E3 & E4 & E5 & E6 & _);
      [done|done|].
    rewrite Hti in E2. simpl in E2.
    apply (inv2_shrink s); try done.
    + rewrite E1. apply delete_subseteq.
    + rewrite E2. etrans; apply delete_subseteq.
    + rewrite E5. simpl. lia.
    + rewrite E6. simpl. intros o'.
      destruct (decide (o = o')) as [<-|Hne].
      * rewrite lookup_insert_eq, Hi. constructor. repeat split. done.
      * rewrite lookup_insert_ne by done. destruct (heap s !! o'); constructor.
        apply same_but_lists_refl.
    + intros key' o' t d' Hk' Ht. rewrite E1 in Hk'.
      apply lookup_delete_Some in Hk' as [Hne Hk'].
      rewrite E2. rewrite !lookup_delete_ne; [done| |]; intros ->; congruence.
  - case_bool_decide as Hguard.
    + destruct (I2 _ _ Hguard) as (i & t & dt & Hi & Hti & Htm & _).
      destruct (removeKey_live key o i s0) as (E1 & E2 & E3 & E4 & E5 & E6 & _);
        [done|done|].
      rewrite Hti in E2. simpl in E2.
      apply (inv2_shrink s); try done.
      * rewrite E1. apply delete_subseteq.
      * rewrite E2. etrans; apply delete_subseteq.
      * rewrite E5. simpl. lia.
      * rewrite E6. simpl. intros o'.
        destruct (decide (o = o')) as [<-|Hne].
        -- rewrite lookup_insert_eq, Hi. constructor. repeat split. done.
        -- rewrite lookup_insert_ne by done. destruct (heap s !! o'); constructor.
           apply same_but_lists_refl.
      * intros key' o' t' d' Hk' Ht. rewrite E1 in Hk'.
        apply lookup_delete_Some in Hk' as [Hne Hk'].
        rewrite E2. rewrite !lookup_delete_ne; [done| |]; intros ->; congruence.
    + apply (inv2_shrink s); try done.
      * apply delete_subseteq.
      * simpl. lia.
      * intros o'. simpl. destruct (heap s !! o'); constructor.
        apply same_but_lists_refl.
      * intros key' o' t' d' Hk' Ht. simpl in *.
        rewrite lookup_delete_ne; [done|]. intros ->. congruence.
Qed.

Section Reachability2.
Context {L : JsLib}.

Lemma arr_includes_false (x : jsstring) (arr : list jsstring) :
  arr_includes x arr = false → x ∉ arr.
Proof. unfold arr_includes. intros H. apply bool_decide_eq_false in H. exact H. Qed.

Lemma inv2_upload_handler r staged s :
  inv s → inv2 s → inv2 (upload_handler r staged s).1.
Proof.
  intros Hinv Hinv2. unfold upload_handler.
  destruct (getKeyFromRequest r) as [[|c k]|];
    [eapply inv2_lists_only, Hinv2; apply lists_only_unlink_all|
    |eapply inv2_lists_only, Hinv2; apply lists_only_unlink_all].
  set (key := c :: k).
  destruct (get_info s key) as [[o i]|] eqn:Hget; simpl;
    [|eapply inv2_lists_only, Hinv2; apply lists_only_unlink_all].
  pose proof Hget as Hget'. apply get_info_Some in Hget as [Hk Hi].
  pose proof (inv2_expireKey key o i s Hinv Hinv2 Hk Hi) as Hinv1.
  assert (∃ i1, heap (expireKey key s).2 !! o = Some i1 ∧ urls i1 = urls i)
    as (i1 & Hi1 & Hurls).
  { rewrite (expireKey_Some key o i) by done. simpl.
    rewrite lookup_insert_eq. eexists. split; reflexivity. }
  set (s1 := (expireKey key s).2) in *.
  set (s2 := match trim <$> body_url r with
             | Some u => if bool_decide (u ≠ []) && negb (arr_includes u (urls i))
                         then push_url o u s1 else s1
             | None => s1
             end).
  assert (inv2 s2) as Hinv2'.
  { unfold s2. destruct (trim <$> body_url r) as [u|]; [|done].
    destruct (bool_decide (u ≠ [])); [|done]. simpl.
    destruct (arr_includes u (urls i)) eqn:Hinc; [done|]. simpl.
    eapply inv2_lists_only, Hinv1. apply (lists_only_push_url o u i1); [done|].
    rewrite Hurls. apply arr_includes_false, Hinc. }
  pose proof (lists_only_upload_loop o (agent i) r staged (s2, [], 0%nat)) as Hloop.
  destruct (foldl _ _ staged) as [[s3 messages] processed]. simpl in Hloop.
  assert (inv2 s3) as Hinv3 by (eapply inv2_lists_only; eauto).
  match goal with |- inv2 (match ?m with _ => _ end).1 => destruct m end; done.
Qed.

Lemma inv2_status key ag s : inv s → inv2 s → inv2 (status key ag s).1.
Proof.
  intros Hinv Hinv2. unfold status.
  destruct (get_info s _) as [[o i]|] eqn:Hget; [|done].
  case_bool_decide; [done|].
  apply get_info_Some in Hget as [Hk Hi].
  pose proof (inv2_expireKey _ o i s Hinv Hinv2 Hk Hi).
  destruct (heap (expireKey _ s).2 !! o); done.
Qed.

Lemma inv2_downloadFile qk filename ag s :
  inv s → inv2 s → inv2 (downloadFile qk filename ag s).1.
Proof.
  intros Hinv Hinv2. unfold downloadFile.
  destruct (toUpperCase <$> qk) as [[|c key]|]; [done| |done].
  destruct (get_info s _) as [[o i]|] eqn:Hget; [|done].
  destruct (find _ _); [|done].
  case_bool_decide; [done|].
  apply get_info_Some in Hget as [Hk Hi].
  apply (inv2_expireKey _ o i s Hinv Hinv2 Hk Hi).
Qed.

Lemma inv2_handle q s s' resp :
  inv s → inv2 s → handle q s = Some (s', resp) → inv2 s'.
Proof.
  intros Hinv Hinv2.
  destruct q as [ag rnd|key ag|r multer|key filename|qk filename ag]; simpl.
  - destruct (generate_cases ag rnd s) as (res & n & Hloop & ->).
    apply key_loop_spec in Hloop.
    destruct res as [key|]; simpl; intros [= <- <-]; [|done].
    apply inv2_generated; [done|done|]. apply Hloop.
  - intros [= Heq]. apply (f_equal fst) in Heq. simpl in Heq. subst s'.
    apply inv2_status; done.
  - intros [= Heq]. apply (f_equal fst) in Heq. simpl in Heq. subst s'.
    destruct multer as [m|staged]; [done|]. apply inv2_upload_handler; done.
  - intros [= Heq]. apply (f_equal fst) in Heq. simpl in Heq. subst s'.
    eapply inv2_lists_only, Hinv2. apply lists_only_deleteFile.
  - intros [= Heq]. apply (f_equal fst) in Heq. simpl in Heq. subst s'.
    apply inv2_downloadFile; done.
Qed.

Lemma inv2_step s s' : inv s → inv2 s → step s s' → inv2 s'.
Proof.
  intros Hinv Hinv2 Hstep.
  destruct Hstep as [s t q s' resp Ht Hdue Hq
                    |s t o i r messages processed fe Ht Hdue Ho
                    |s t p Ht Hdue|s id Hdue].
  - eapply inv2_handle, Hq; [apply inv_set_now|apply inv2_set_now]; done.
  - eapply inv2_lists_only; [apply lists_only_upload_item|].
    apply inv2_set_now; done.
  - eapply inv2_lists_only; [apply lists_only_disk|].
    apply inv2_set_now; done.
  - apply inv2_fire; done.
Qed.

Lemma reachable_inv2 s : reachable s → inv2 s.
Proof.
  intros Hreach.
  enough (inv s ∧ inv2 s) as [_ H] by exact H.
  revert s Hreach. unfold reachable. apply rtc_ind_r.
  - split; [apply inv_init|apply inv2_init].
  - intros y z _ Hstep [IH1 IH2]. split.
    + eapply inv_step; eauto.
    + eapply inv2_step; eauto.
Qed.

End Reachability2.

(** X2.  A session that stays idle for the idle window is gone: in every
    reachable state the renewable timer of a registered session is pending,
    due [expireDelay] seconds after the session's last activity, which lies
    between its creation and now; so no work runs ten minutes or more after
    the last activity while the session is still registered, and when that
    timer fires the key is no longer registered. *)
Theorem X2_idle_expiry {L : JsLib} (s : state) (key : jsstring) (o : loc) (i : info) :
  reachable s → keys s !! key = Some o → heap s !! o = Some i →
  created i ≤ alive i ∧ alive i ≤ now s ∧
  now s ≤ alive i + expireDelay * 1000 ∧
  (∀ t, now s ≤ t → none_due t s → t < alive i + expireDelay * 1000) ∧
  ∃ id, timer i = Some id ∧
        timers s !! id = Some (alive i + expireDelay * 1000, CbRemoveKey key) ∧
        keys (fire id s) !! key = None.
Proof.
  intros Hreach Hk Hi.
  pose proof (reachable_inv s Hreach) as [I1 I2 I3 I4 I5].
  pose proof (reachable_inv2 s Hreach) as [J1 J2 J3].
  destruct (J1 _ _ _ Hk Hi) as (t & Hti & Htm & Hca & Han).
  split; [done|]. split; [done|]. split; [eapply I1, Htm|]. split.
  - intros t' _ Hdue. exact (Hdue _ _ Htm).
  - exists t. split; [done|]. split; [done|].
    unfold fire. rewrite Htm. simpl.
    destruct (removeKey_live key o i
                (set_now (Z.max (now s) (alive i + expireDelay * 1000))
                   (upd_timers (delete t) s))) as (-> & _); [done|done|].
    simpl. apply lookup_delete_eq.
Qed.

(** X3.  The urls of a session never repeat: in every reachable state the
    url list of every session object is free of duplicates. *)
Theorem X3_urls_without_duplicates {L : JsLib} (s : state) (o : loc) (i : info) :
  reachable s → heap s !! o = Some i → NoDup (urls i).
Proof. intros Hreach Hi. eapply (inv_urls s), Hi. apply reachable_inv2, Hreach. Qed.

(** X4.  A registered session has exactly one pending renewable timer and
    exactly one pending hard-cap timer: every pending [removeKey] timer for
    its key is its [timer], and every pending hard-cap closure for its object
    is the one set at its creation. *)
Theorem X4_two_timers_per_session {L : JsLib} (s : state) (key : jsstring)
    (o : loc) (i : info) :
  reachable s → keys s !! key = Some o → heap s !! o = Some i →
  ∃ t h,
    timer i = Some t ∧ t ≠ h ∧
    timers s !! t = Some (alive i + expireDelay * 1000, CbRemoveKey key) ∧
    timers s !! h = Some (created i + maxExpireDuration * 1000, CbHardCap key o) ∧
    (∀ id d, timers s !! id = Some (d, CbRemoveKey key) → id = t) ∧
    (∀ id d key', timers s !! id = Some (d, CbHardCap key' o) → id = h).
Proof.
  intros Hreach Hk Hi.
  pose proof (reachable_inv s Hreach) as [I1 I2 I3 I4 I5].
  pose proof (reachable_inv2 s Hreach) as [J1 J2 J3].
  destruct (J1 _ _ _ Hk Hi) as (t & Hti & Htm & _).
  destruct (I2 _ _ Hk) as (i0 & _ & _ & Hi0 & _ & _ & h & Hh).
  assert (i0 = i) as -> by congruence.
  exists t, h. repeat split; try done.
  - intros ->. congruence.
  - intros id d Hid. destruct (I4 _ _ _ Hid) as (o' & i' & Hk' & Hi' & Hti').
    congruence.
  - intros id d key' Hid. destruct (J3 _ _ _ _ Hh) as [_ Huniq]. eauto.
Qed.

(** ** Who changes the registry *)

Lemma same_identity_refl s : same_identity s s.
Proof. repeat split. intros o. destruct (heap s !! o); constructor. done. Qed.

Lemma same_identity_trans s1 s2 s3 :
  same_identity s1 s2 → same_identity s2 s3 → same_identity s1 s3.
Proof.
  intros (?&?&H12) (?&?&H23). repeat split; try congruence.
  intros o. specialize (H12 o). specialize (H23 o).
  destruct H12 as [i1 i2 (?&?)|]; inversion H23 as [? i3 (?&?)|]; subst;
    constructor. split; congruence.
Qed.

Lemma same_sessions_identity s s' : same_sessions s s' → same_identity s s'.
Proof.
  intros (Hk & _ & _ & Hnl & _ & Hh). repeat split; try done.
  intros o. specialize (Hh o). destruct Hh as [i i' (?&?&?)|]; constructor. done.
Qed.

Lemma same_identity_expireKey key s : same_identity s (expireKey key s).2.
Proof.
  destruct (get_info s key) as [[o i]|] eqn:Hget.
  - rewrite (expireKey_Some key o i) by done.
    apply get_info_Some in Hget as [Hk Hi]. cbn [snd].
    match goal with |- same_identity s ?x => remember x as s' eqn:Es end.
    assert (keys s' = keys s ∧ next_loc s' = next_loc s ∧
            heap s' = <[o := set_timer_alive (next_timer s) (now s) i]> (heap s))
      as (E1 & E2 & E3) by (subst s'; destruct (timer i); done).
    split; [done|]. split; [done|]. intros o'. rewrite E3.
    destruct (decide (o = o')) as [<-|Hne].
    + rewrite lookup_insert_eq, Hi. constructor. done.
    + rewrite lookup_insert_ne by done. destruct (heap s !! o'); constructor. done.
  - rewrite (expireKey_None key s) by done. repeat split.
    intros o. simpl. destruct (heap s !! o); constructor. done.
Qed.

Section Identity.
Context {L : JsLib}.

Lemma same_sessions_deleteFile key filename s :
  same_sessions s (deleteFile key filename s).1.
Proof.
  unfold deleteFile.
  destruct (get_info s _) as [[o i]|] eqn:Hget; [|apply same_sessions_refl].
  apply get_info_Some in Hget as [Hk Hi].
  destruct (remove_first filename (files i)) as [[file rest]|];
    [|apply same_sessions_refl].
  simpl. eapply same_sessions_trans; [apply (same_sessions_unlink (fr_path file))|].
  apply (same_sessions_insert o i); [done|]. repeat split.
Qed.

Lemma same_identity_status key ag s : same_identity s (status key ag s).1.
Proof.
  unfold status.
  destruct (get_info s _) as [[o i]|]; [|apply same_identity_refl].
  case_bool_decide; [apply same_identity_refl|].
  pose proof (same_identity_expireKey (toUpperCase key) s).
  destruct (heap (expireKey _ s).2 !! o); done.
Qed.

Lemma same_identity_downloadFile qk filename ag s :
  same_identity s (downloadFile qk filename ag s).1.
Proof.
  unfold downloadFile.
  destruct (toUpperCase <$> qk) as [[|c key]|]; try apply same_identity_refl.
  destruct (get_info s _) as [[o i]|]; [|apply same_identity_refl].
  destruct (find _ _); [|apply same_identity_refl].
  case_bool_decide; [apply same_identity_refl|].
  apply same_identity_expireKey.
Qed.

Lemma same_identity_upload_handler r staged s :
  same_identity s (upload_handler r staged s).1.
Proof.
  unfold upload_handler.
  destruct (getKeyFromRequest r) as [[|c k]|];
    try (apply same_sessions_identity, same_sessions_unlink_all).
  set (key := c :: k).
  destruct (get_info s key) as [[o i]|]; simpl;
    [|apply same_sessions_identity, same_sessions_unlink_all].
  pose proof (same_identity_expireKey key s) as H1.
  set (s1 := (expireKey key s).2) in *.
  set (s2 := match trim <$> body_url r with
             | Some u => if bool_decide (u ≠ []) && negb (arr_includes u (urls i))
                         then push_url o u s1 else s1
             | None => s1
             end).
  assert (same_identity s s2) as H2.
  { unfold s2. destruct (trim <$> body_url r) as [u|]; [|done].
    destruct (_ && _); [|done].
    eapply same_identity_trans; [exact H1|].
    apply same_sessions_identity, same_sessions_push_url. }
  pose proof (same_sessions_upload_loop o (agent i) r staged (s2, [], 0%nat)) as Hloop.
  destruct (foldl _ _ staged) as [[s3 messages] processed]. simpl in Hloop.
  assert (same_identity s s3) as H3
    by (eapply same_identity_trans; [exact H2|apply same_sessions_identity, Hloop]).
  match goal with |- same_identity _ (match ?m with _ => _ end).1 => destruct m end;
    done.
Qed.

End Identity.

(** X5.  Status polls, uploads, file deletions and downloads never add,
    remove or re-key a session, and never change the creation time or the
    device identity of a session object; nor does an upload iteration that
    resumes later. *)
Theorem X5_handlers_keep_registry {L : JsLib} :
  (∀ key user_agent s, same_identity s (status key user_agent s).1) ∧
  (∀ r multer s, same_identity s (upload r multer s).1) ∧
  (∀ key filename s, same_identity s (deleteFile key filename s).1) ∧
  (∀ query_key filename user_agent s,
     same_identity s (downloadFile query_key filename user_agent s).1) ∧
  (∀ o ag r s messages processed fe,
     same_identity s (upload_item o ag r (s, messages, processed) fe).1.1).
Proof.
  split; [exact same_identity_status|].
  split; [intros r [m|staged] s;
          [apply same_identity_refl|apply same_identity_upload_handler]|].
  split; [intros; apply same_sessions_identity, same_sessions_deleteFile|].
  split; [exact same_identity_downloadFile|].
  intros. apply same_sessions_identity, same_sessions_upload_item.
Qed.

Lemma removeKey_keys key s :
  keys (removeKey key s) ⊆ keys s ∧ next_loc (removeKey key s) = next_loc s.
Proof.
  destruct (get_info s key) as [[o i]|] eqn:Hget.
  - apply get_info_Some in Hget as [Hk Hi].
    destruct (removeKey_live key o i s Hk Hi) as (-> & _ & _ & -> & _).
    split; [apply delete_subseteq|reflexivity].
  - unfold removeKey. rewrite Hget. done.
Qed.

Lemma fire_keys id s :
  keys (fire id s) ⊆ keys s ∧ next_loc (fire id s) = next_loc s.
Proof.
  unfold fire. destruct (timers s !! id) as [[d cb]|]; [|done].
  destruct cb as [key|key o]; simpl.
  - apply (removeKey_keys key (set_now _ (upd_timers _ s))).
  - case_bool_decide; [|done].
    apply (removeKey_keys key (set_now _ (upd_timers _ s))).
Qed.

(** A step registers at most a newly allocated object. *)
Lemma step_registry {L : JsLib} s s' :
  step s s' →
  (next_loc s ≤ next_loc s')%nat ∧
  ∀ key o, keys s' !! key = Some o →
           keys s !! key = Some o ∨ (next_loc s ≤ o)%nat.
Proof.
  assert (∀ a b, same_identity a b →
            (next_loc a ≤ next_loc b)%nat ∧
            ∀ key o, keys b !! key = Some o →
                     keys a !! key = Some o ∨ (next_loc a ≤ o)%nat) as Hid.
  { intros a b (Hk & Hnl & _). rewrite Hk, Hnl. split; [lia|]. auto. }
  intros Hstep.
  destruct Hstep as [s t q s' resp Ht Hdue Hq
                    |s t o i r messages processed fe Ht Hdue Ho
                    |s t p Ht Hdue|s id Hdue].
  - destruct q as [ag rnd|key ag|r multer|key filename|qk filename ag];
      simpl in Hq.
    + destruct (generate_cases ag rnd (set_now t s)) as (res & n & _ & Hgen).
      rewrite Hgen in Hq. destruct res as [key|]; injection Hq as <- <-.
      * simpl. split; [lia|]. intros key' o' Hk'.
        apply lookup_insert_Some in Hk' as [[_ <-]|[_ Hk']]; [right; lia|by left].
      * simpl. split; [lia|]. auto.
    + injection Hq as Hq. apply (f_equal fst) in Hq. simpl in Hq. subst s'.
      apply (Hid (set_now t s)), same_identity_status.
    + injection Hq as Hq. apply (f_equal fst) in Hq. simpl in Hq. subst s'. apply (Hid (set_now t s)).
      destruct multer as [m|staged];
        [apply same_identity_refl|apply same_identity_upload_handler].
    + injection Hq as Hq. apply (f_equal fst) in Hq. simpl in Hq. subst s'.
      apply (Hid (set_now t s)), same_sessions_identity, same_sessions_deleteFile.
    + injection Hq as Hq. apply (f_equal fst) in Hq. simpl in Hq. subst s'.
      apply (Hid (set_now t s)), same_identity_downloadFile.
  - apply (Hid (set_now t s)), same_sessions_identity, same_sessions_upload_item.
  - simpl. split; [lia|]. auto.
  - destruct (fire_keys id s) as [Hsub ->]. split; [lia|].
    intros key o Hk. left. eapply lookup_weaken; eauto.
Qed.

(** X6.  Expiry is final: a session object that is allocated and not
    registered is never registered again, whatever the process does next. *)
Theorem X6_no_resurrection {L : JsLib} (s s' : state) (o : loc) :
  rtc step s s' → (o < next_loc s)%nat → ¬ registered o s → ¬ registered o s'.
Proof.
  intros Hrun Ho Hnot.
  enough ((next_loc s ≤ next_loc s')%nat ∧ ¬ registered o s') as [_ H] by exact H.
  revert s' Hrun. apply rtc_ind_r; [split; [lia|done]|].
  intros y z _ Hstep [IH1 IH2].
  destruct (step_registry y z Hstep) as [Hnl Hkeys].
  split; [lia|]. intros [key Hk].
  destruct (Hkeys _ _ Hk) as [Hold|Hnew]; [|lia].
  apply IH2. exists key. exact Hold.
Qed.

(** Removing a key a second time changes nothing. *)
Lemma get_info_removeKey key s : get_info (removeKey key s) key = None.
Proof.
  destruct (get_info s key) as [[o i]|] eqn:Hget.
  - apply get_info_Some in Hget as [Hk Hi].
    destruct (removeKey_live key o i s Hk Hi) as (E & _).
    apply get_info_None_keys. rewrite E. apply lookup_delete_eq.
  - unfold removeKey. rewrite Hget. exact Hget.
Qed.

(** X7.  [removeKey] for a key that is not registered changes nothing, so
    removing a key twice is the same as removing it once. *)
Theorem X7_removeKey_idempotent (key : jsstring) (s : state) :
  (keys s !! key = None → removeKey key s = s) ∧
  removeKey key (removeKey key s) = removeKey key s.
Proof.
  split.
  - intros Hk. unfold removeKey. rewrite (get_info_None_keys s key Hk). reflexivity.
  - unfold removeKey at 1. rewrite get_info_removeKey. reflexivity.
Qed.




(** X9.  A status poll for a key that is not registered is answered 404 and
    changes nothing; for a registered key polled by the device that created
    the session it renews the session and reports the time of the poll as
    the last activity, the names of the session's files in upload order and
    its urls. *)
Theorem X9_status_poll {L : JsLib} (key user_agent : jsstring) (s : state) :
  (keys s !! toUpperCase key = None → status key user_agent s = (s, RNotFound)) ∧
  (∀ o i, keys s !! toUpperCase key = Some o → heap s !! o = Some i →
     agent i = user_agent →
     status key user_agent s =
       ((expireKey (toUpperCase key) s).2,
        RStatus (now s) (fr_name <$> files i) (urls i))).
Proof.
  split.
  - intros Hk. unfold status. rewrite (get_info_None_keys s _ Hk). reflexivity.
  - intros o i Hk Hi Hag. unfold status.
    rewrite (proj2 (get_info_Some s _ o i)) by done.
    rewrite bool_decide_eq_false_2 by (intros H; apply H; exact Hag).
    rewrite (expireKey_Some _ o i) by (apply get_info_Some; done).
    cbn [snd]. 
    assert (∀ t, heap (upd_heap <[o:=set_timer_alive (next_timer s) (now s) i]>
                  (clearTimeout t
                     (setTimeout (CbRemoveKey (toUpperCase key))
                        (expireDelay * 1000) s).2)) !! o
            = Some (set_timer_alive (next_timer s) (now s) i)) as ->
      by (intros [t|]; simpl; apply lookup_insert_eq).
    reflexivity.
Qed.


Section UploadLoop.
Context {L : JsLib}.

Lemma processFile_heap file ag r e s :
  heap (processFile file ag r e s).1 = heap s.
Proof.
  unfold processFile.
  repeat match goal with
         | |- context [if ?b then _ else _] => destruct b
         | |- context [match spawned ?e with _ => _ end] => destruct (spawned e)
         end; reflexivity.
Qed.

(** One iteration adds one message and at most one record for an item that
    is not empty, and nothing for an empty one. *)
Lemma upload_item_account o ag r s messages processed fe i :
  heap s !! o = Some i →
  ∃ recs line,
    let res := upload_item o ag r (s, messages, processed) fe in
    heap res.1.1 = <[o := set_files (files i ++ recs) i]> (heap s) ∧
    res.1.2 = messages ++ line ∧
    res.2 = (processed + length recs)%nat ∧
    (length recs ≤ length line)%nat ∧
    length line = length (nonempty_items [fe]).
Proof.
  intros Hi. unfold upload_item, nonempty_items. destruct fe as [file e].
  cbn [List.filter fst].
  destruct (size_bytes file =? 0)%N.
  - exists [], []. simpl. rewrite !app_nil_r.
    rewrite (set_files_id (files i) i eq_refl), (insert_id _ _ _ Hi).
    split_and!; try (simpl; lia); reflexivity.
  - pose proof (processFile_heap file ag r e s) as Hheap.
    destruct (processFile file ag r e s) as [s1 [err|rec]]; simpl in Hheap.
    + exists [], [CROSS +++ js " Error processing " +++ originalname file
                    +++ js ": " +++ err].
      cbn [fst snd length negb]. rewrite app_nil_r.
      rewrite (set_files_id (files i) i eq_refl), (insert_id _ _ _ Hi).
      split_and!; try (simpl; lia); try reflexivity. simpl. congruence.
    + eexists [rec], [_]. cbn [fst snd length negb].
      split_and!; try (simpl; lia); try reflexivity.
      simpl. rewrite Hheap. apply map_eq. intros o'.
      destruct (decide (o = o')) as [<-|Hne].
      * rewrite lookup_alter_eq, lookup_insert_eq, Hi. reflexivity.
      * rewrite lookup_alter_ne, lookup_insert_ne by done. reflexivity.
Qed.

Lemma nonempty_items_cons fe staged :
  length (nonempty_items (fe :: staged)) =
  (length (nonempty_items [fe]) + length (nonempty_items staged))%nat.
Proof.
  unfold nonempty_items. simpl. destruct (negb _); simpl; lia.
Qed.

Lemma upload_loop_account o ag r staged s messages processed i :
  heap s !! o = Some i →
  ∃ recs lines,
    let res := foldl (upload_item o ag r) (s, messages, processed) staged in
    heap res.1.1 = <[o := set_files (files i ++ recs) i]> (heap s) ∧
    res.1.2 = messages ++ lines ∧
    res.2 = (processed + length recs)%nat ∧
    (length recs ≤ length lines)%nat ∧
    length lines = length (nonempty_items staged).
Proof.
  revert s messages processed i.
  induction staged as [|fe staged IH]; intros s messages processed i Hi.
  - exists [], []. simpl. rewrite !app_nil_r.
    rewrite (set_files_id (files i) i eq_refl), (insert_id _ _ _ Hi).
    split_and!; try (simpl; lia); reflexivity.
  - destruct (upload_item_account o ag r s messages processed fe i Hi)
      as (recs1 & line & H1 & H2 & H3 & H4 & H5). cbv zeta in *.
    cbn [foldl].
    destruct (upload_item o ag r (s, messages, processed) fe) as [[s1 m1] n1].
    cbn [fst snd] in *.
    assert (heap s1 !! o = Some (set_files (files i ++ recs1) i)) as Hi1
      by (rewrite H1; apply lookup_insert_eq).
    destruct (IH s1 m1 n1 _ Hi1) as (recs2 & lines & G1 & G2 & G3 & G4 & G5).
    cbv zeta in *.
    exists (recs1 ++ recs2), (line ++ lines).
    rewrite G1, G2, G3, H1, H2, H3. cbn [files set_files].
    rewrite insert_insert_eq, !length_app, nonempty_items_cons, <- !app_assoc.
    split_and!; try lia; reflexivity.
Qed.

End UploadLoop.


(** X12.  An upload for a registered key renews the session whatever it
    carries, and is answered 400, nothing selected, exactly when every
    staged item is empty and the url is absent or blank; in every other
    case the answer is 200, even when every item failed. *)
Theorem X12_upload_response {L : JsLib} (r : upload_request)
    (staged : list (upload_file * file_env)) (s : state)
    (key : jsstring) (o : loc) (i : info) :
  getKeyFromRequest r = Some key → key ≠ [] →
  keys s !! key = Some o → heap s !! o = Some i →
  timers (upload_handler r staged s).1 = timers (expireKey key s).2 ∧
  (nonempty_items staged = [] →
   (body_url r = None ∨ ∃ u, body_url r = Some u ∧ trim u = []) →
   (upload_handler r staged s).2 = RFlash 400 (js "No file or url selected")) ∧
  (nonempty_items staged ≠ [] ∨ (∃ u, body_url r = Some u ∧ trim u ≠ []) →
   ∃ message, (upload_handler r staged s).2 = RFlash 200 message).
Proof.
  intros Hkey Hne Hk Hi. unfold upload_handler. rewrite Hkey.
  destruct key as [|c k]; [done|]. set (key := c :: k) in *.
  rewrite (proj2 (get_info_Some s key o i)) by done.
  set (s1 := (expireKey key s).2).
  set (url := trim <$> body_url r).
  set (s2 := match url with
             | Some u => if bool_decide (u ≠ []) && negb (arr_includes u (urls i))
                         then push_url o u s1 else s1
             | None => s1
             end).
  assert (same_sessions s1 s2) as H12.
  { unfold s2. destruct url as [u|]; [|apply same_sessions_refl].
    destruct (_ && _); [apply same_sessions_push_url|apply same_sessions_refl]. }
  assert (∃ i2, heap s2 !! o = Some i2) as [i2 Hi2].
  { destruct (same_identity_expireKey key s) as (_ & _ & Hh1). specialize (Hh1 o).
    rewrite Hi in Hh1. inversion Hh1 as [? i1 _ Hx Hy|]. symmetry in Hy.
    destruct H12 as (_ & _ & _ & _ & _ & Hh2). specialize (Hh2 o).
    fold s1 in Hy. rewrite Hy in Hh2. inversion Hh2. eauto. }
  pose proof (same_sessions_upload_loop o (agent i) r staged (s2, [], 0%nat)) as Hloop.
  destruct (upload_loop_account o (agent i) r staged s2 [] 0%nat i2 Hi2)
    as (recs & lines & _ & Hmsg & Hn & Hle & Hlen). cbv zeta in *.
  destruct (foldl _ _ staged) as [[s3 messages] processed].
  cbn [fst snd] in *. rewrite app_nil_l in Hmsg. subst messages.
  assert (timers s3 = timers s1) as Htimers.
  { destruct Hloop as (_ & -> & _). destruct H12 as (_ & -> & _). reflexivity. }
  split; [|split].
  - match goal with |- timers (match ?m with _ => _ end).1 = _ => destruct m end;
      exact Htimers.
  - intros Hempty Hblank.
    rewrite Hempty in Hlen. destruct lines; [|discriminate].
    assert (url = None ∨ url = Some []) as [-> | ->].
    { unfold url. destruct Hblank as [->|(u & -> & Hu)]; [by left|right].
      simpl. rewrite Hu. reflexivity. }
    + reflexivity.
    + reflexivity.
  - intros [Hfiles|(u & Hu & Hnb)].
    + assert (lines ≠ []) as Hlines.
      { intros ->. apply Hfiles. destruct (nonempty_items staged); [done|discriminate]. }
      destruct lines as [|l lines]; [done|].
      destruct url as [u|]; [destruct (bool_decide (u ≠ []))|];
        simpl; eexists; reflexivity.
    + assert (url = Some (trim u)) as -> by (unfold url; rewrite Hu; reflexivity).
      rewrite (bool_decide_eq_true_2 (trim u ≠ [])) by done.
      destruct (lines ++ [CHECK +++ js " Added url: " +++ trim u]) eqn:E;
        [|eexists; reflexivity].
      apply app_eq_nil in E as [_ E]. discriminate.
Qed.

(** ** Suffix replacement *)

Lemma ends_with_ci_split (p s : jsstring) :
  ends_with_ci p s = true →
  (length p ≤ length s)%nat ∧
  s = firstn (length s - length p) s +++ skipn (length s - length p) s ∧
  List.map fold_lower (skipn (length s - length p) s) = p.
Proof.
  unfold ends_with_ci. intros H. apply bool_decide_eq_true in H.
  split; [|split; [symmetry; apply firstn_skipn|exact H]].
  apply (f_equal (@length N)) in H. rewrite length_map, length_skipn in H. lia.
Qed.

Lemma replace_suffix_ci_length (p s : jsstring) :
  length (replace_suffix_ci p p s) = length s.
Proof.
  unfold replace_suffix_ci. destruct (ends_with_ci p s) eqn:E; [|reflexivity].
  apply ends_with_ci_split in E as (Hle & _ & _).
  rewrite length_app, length_firstn. lia.
Qed.

Lemma replace_suffix_ci_lower (p s : jsstring) :
  List.map fold_lower p = p →
  List.map fold_lower (replace_suffix_ci p p s) = List.map fold_lower s.
Proof.
  intros Hp. unfold replace_suffix_ci.
  destruct (ends_with_ci p s) eqn:E; [|reflexivity].
  apply ends_with_ci_split in E as (Hle & Hs & Hsuf).
  rewrite Hs at 3. rewrite !map_app, Hp, Hsuf. reflexivity.
Qed.

Lemma ends_with_ci_lower (q x y : jsstring) :
  List.map fold_lower x = List.map fold_lower y →
  ends_with_ci q x = ends_with_ci q y.
Proof.
  intros H. unfold ends_with_ci.
  assert (length x = length y) as Hlen
    by (apply (f_equal (@length N)) in H; rewrite !length_map in H; exact H).
  rewrite Hlen, <- !skipn_map, H. reflexivity.
Qed.

Lemma replace_suffix_ci_idem (p s : jsstring) :
  List.map fold_lower p = p →
  replace_suffix_ci p p (replace_suffix_ci p p s) = replace_suffix_ci p p s.
Proof.
  intros Hp.
  pose proof (ends_with_ci_lower p _ _ (replace_suffix_ci_lower p s Hp)) as Hends.
  pose proof (replace_suffix_ci_length p s) as Hlen.
  unfold replace_suffix_ci at 1. rewrite Hends, Hlen.
  destruct (ends_with_ci p s) eqn:E; [|unfold replace_suffix_ci; rewrite E; reflexivity].
  unfold replace_suffix_ci. rewrite E.
  apply ends_with_ci_split in E as (Hle & _ & _).
  rewrite firstn_app, firstn_firstn, length_firstn.
  replace (length s - length p - Init.Nat.min (length s - length p) (length s))%nat
    with 0%nat by lia.
  rewrite Nat.min_id. simpl. rewrite app_nil_r. reflexivity.
Qed.

Lemma epub_not_pdf (s : jsstring) :
  ends_with_ci (js ".epub") s = true → ends_with_ci (js ".pdf") s = false.
Proof.
  intros He. apply ends_with_ci_split in He as (Hle & _ & Hsuf).
  unfold ends_with_ci. apply bool_decide_eq_false. intros Hpdf.
  change (length (js ".epub")) with 5%nat in *.
  change (length (js ".pdf")) with 4%nat in *.
  replace (length s - 4)%nat with (1 + (length s - 5))%nat in Hpdf by lia.
  rewrite <- skipn_skipn, <- skipn_map, Hsuf in Hpdf. vm_compute in Hpdf.
  discriminate.
Qed.

Lemma passthrough_name_idem (name : jsstring) :
  passthrough_name (passthrough_name name) = passthrough_name name.
Proof.
  assert (List.map fold_lower (js ".epub") = js ".epub") as He by reflexivity.
  assert (List.map fold_lower (js ".pdf") = js ".pdf") as Hp by reflexivity.
  unfold passthrough_name.
  destruct (ends_with_ci (js ".epub") name) eqn:E.
  - set (s1 := replace_suffix_ci (js ".epub") (js ".epub") name).
    assert (ends_with_ci (js ".epub") s1 = true) as E1
      by (unfold s1; rewrite (ends_with_ci_lower _ _ name); [done|];
          apply replace_suffix_ci_lower, He).
    assert (replace_suffix_ci (js ".pdf") (js ".pdf") s1 = s1) as ->
      by (unfold replace_suffix_ci at 1; rewrite (epub_not_pdf s1 E1); reflexivity).
    unfold s1. rewrite (replace_suffix_ci_idem _ _ He). fold s1.
    unfold replace_suffix_ci at 1. rewrite (epub_not_pdf s1 E1). reflexivity.
  - assert (replace_suffix_ci (js ".epub") (js ".epub") name = name) as ->
      by (unfold replace_suffix_ci; rewrite E; reflexivity).
    set (s2 := replace_suffix_ci (js ".pdf") (js ".pdf") name).
    assert (ends_with_ci (js ".epub") s2 = false) as E2
      by (unfold s2; rewrite (ends_with_ci_lower _ _ name); [done|];
          apply replace_suffix_ci_lower, Hp).
    assert (replace_suffix_ci (js ".epub") (js ".epub") s2 = s2) as ->
      by (unfold replace_suffix_ci at 1; rewrite E2; reflexivity).
    unfold s2. apply replace_suffix_ci_idem, Hp.
Qed.

(** X13.  The extension rewriting of a file stored as it is only changes
    the case of a final [.epub] or [.pdf]: the name keeps its length and its
    characters up to case, ends in the lower-case extension when it ended
    in that extension in any case, and rewriting it again changes
    nothing. *)
Theorem X13_passthrough_name (name : jsstring) :
  length (passthrough_name name) = length name ∧
  List.map fold_lower (passthrough_name name) = List.map fold_lower name ∧
  passthrough_name (passthrough_name name) = passthrough_name name ∧
  (ends_with_ci (js ".epub") name = true →
   passthrough_name name = firstn (length name - 5) name +++ js ".epub") ∧
  (ends_with_ci (js ".pdf") name = true →
   passthrough_name name = firstn (length name - 4) name +++ js ".pdf") ∧
  (ends_with_ci (js ".epub") name = false → ends_with_ci (js ".pdf") name = false →
   passthrough_name name = name).
Proof.
  assert (List.map fold_lower (js ".epub") = js ".epub") as He by reflexivity.
  assert (List.map fold_lower (js ".pdf") = js ".pdf") as Hp by reflexivity.
  split_and!.
  - unfold passthrough_name. rewrite !replace_suffix_ci_length. reflexivity.
  - unfold passthrough_name.
    rewrite (replace_suffix_ci_lower _ _ Hp), (replace_suffix_ci_lower _ _ He).
    reflexivity.
  - apply passthrough_name_idem.
  - intros E. unfold passthrough_name.
    assert (replace_suffix_ci (js ".epub") (js ".epub") name
            = firstn (length name - 5) name +++ js ".epub") as Hr
      by (unfold replace_suffix_ci; rewrite E; reflexivity).
    unfold replace_suffix_ci at 1.
    rewrite (epub_not_pdf (replace_suffix_ci (js ".epub") (js ".epub") name));
      [exact Hr|].
    rewrite (ends_with_ci_lower _ _ name); [done|].
    apply replace_suffix_ci_lower, He.
  - intros E. unfold passthrough_name.
    assert (ends_with_ci (js ".epub") name = false) as E'.
    { destruct (ends_with_ci (js ".epub") name) eqn:E1; [|reflexivity].
      rewrite (epub_not_pdf name E1) in E. discriminate. }
    unfold replace_suffix_ci. rewrite E', E. reflexivity.
  - intros E1 E2. unfold passthrough_name, replace_suffix_ci. rewrite E1, E2.
    reflexivity.
Qed.

(** X14.  Which converter runs: a record returned by [processFile] is
    tagged kindlegen exactly when the content type is EPUB, the session's
    device is a Kindle and the kindlegen flag is set; kepubify exactly when
    that is not the case and the type is EPUB, the device a Kobo and the
    kepubify flag set; and is untagged otherwise, in which case the file
    system is left as it is, the record points at the staged path, and its
    name is the display name with the extension rewriting of line 458.  The
    record carries the time of the call. *)
Theorem X14_conversion_dispatch {L : JsLib} (file : upload_file) (ag : jsstring)
    (r : upload_request) (e : file_env) (s s' : state) (rec : file_record) :
  processFile file ag r e s = (s', inr rec) →
  let epub := bool_decide (effective_type file e = TYPE_EPUB) in
  let kindle := epub && includes (js "Kindle") ag && body_kindlegen r in
  let kobo := negb kindle && epub && includes (js "Kobo") ag && body_kepubify r in
  fr_conversion rec =
    (if kindle then Some Kindlegen else if kobo then Some Kepubify else None) ∧
  fr_uploaded rec = now s ∧
  (kindle = false → kobo = false →
   s' = s ∧ fr_path rec = path file ∧
   fr_name rec = passthrough_name (display_name ag r file)).
Proof.
  intros Hproc epub kindle kobo. revert Hproc. unfold processFile.
  destruct (negb (sniffed_allowed e) && negb (arr_includes (effective_type file e) allowedTypes));
    [discriminate|].
  fold epub. fold kindle.
  destruct kindle eqn:Ek.
  - destruct (spawned e) as [err|code output written]; [discriminate|].
    destruct (bool_decide (code ≠ Some 0%N) && bool_decide (code ≠ Some 1%N));
      [discriminate|].
    intros [= <- <-]. split_and!; try done.
  - unfold kobo. cbn [negb andb].
    destruct (epub && includes (js "Kobo") ag && body_kepubify r) eqn:Eb.
    + destruct (spawned e) as [err|code output written]; [discriminate|].
      destruct (bool_decide (code ≠ Some 0%N)); [discriminate|]. intros [= <- <-].
      split_and!; try done.
    + intros [= <- <-]. split_and!; try done.
Qed.

Lemma legacy_epub_not_allowed :
  arr_includes (js "application/epub") allowedTypes = false.
Proof. vm_compute. reflexivity. Qed.

Lemma octet_not_allowed : arr_includes OCTET_STREAM allowedTypes = false.
Proof. vm_compute. reflexivity. Qed.

(** X15.  A declared type on the allow-list is trusted: for an item the
    file filter passes whose declared type is not the octet-stream
    placeholder, the effective type is the declared one and the type test
    of [processFile] succeeds whatever is sniffed, so that without a
    conversion flag [processFile] stores the staged file as it is. *)
Theorem X15_declared_type_is_trusted {L : JsLib} (s : state) (hdr : jsval)
    (file : upload_file) (e : file_env) :
  fileFilter s hdr file = None → mimetype file ≠ OCTET_STREAM →
  effective_type file e = mimetype file ∧
  type_allowed file e = true ∧
  ∀ ag r s0,
    body_kindlegen r = false → body_kepubify r = false →
    processFile file ag r e s0 =
      (s0, inr {| fr_name := passthrough_name (display_name ag r file);
                  fr_path := path file;
                  fr_uploaded := now s0;
                  fr_conversion := None |}).
Proof.
  intros Hfilter Hoct.
  destruct (fileFilter_pass s hdr file Hfilter) as [_ [Hallowed|Hoct']]; [|done].
  assert (effective_type file e = mimetype file) as Heff.
  { unfold effective_type.
    rewrite (bool_decide_eq_false_2 (mimetype file = OCTET_STREAM)) by done.
    assert (mimetype file ≠ js "application/epub") as Hleg.
    { intros Heq. rewrite Heq, legacy_epub_not_allowed in Hallowed. discriminate. }
    destruct (sniffed e); rewrite bool_decide_eq_false_2 by done; reflexivity. }
  split; [exact Heff|]. split.
  - unfold type_allowed. rewrite Heff, Hallowed. reflexivity.
  - intros ag r s0 Hk1 Hk2. unfold processFile.
    rewrite Heff, Hallowed, Hk1, Hk2, !andb_false_r. reflexivity.
Qed.

Lemma Forall_replace_suffix_ci (P : N → Prop) (p r s : jsstring) :
  Forall P s → Forall P r → Forall P (replace_suffix_ci p r s).
Proof.
  intros Hs Hr. unfold replace_suffix_ci. destruct (ends_with_ci p s); [|exact Hs].
  apply Forall_app. split; [apply Forall_take, Hs|exact Hr].
Qed.

Lemma Forall_kindle_replace (s : jsstring) :
  Forall (λ c, kindle_safe c = true) (kindle_replace s).
Proof.
  unfold kindle_replace. apply Forall_forall. intros c Hc.
  apply list_elem_of_In, in_map_iff in Hc. destruct Hc as (x & <- & _).
  destruct (kindle_safe x) eqn:E; [exact E|reflexivity].
Qed.

(** X16.  Every name stored for a Kindle consists of word characters, dots,
    hyphens, quotes and parentheses only, whatever the upload was called and
    whichever branch of [processFile] stored it. *)
Theorem X16_kindle_names_are_safe {L : JsLib} (file : upload_file) (ag : jsstring)
    (r : upload_request) (e : file_env) (s s' : state) (rec : file_record) :
  processFile file ag r e s = (s', inr rec) → includes (js "Kindle") ag = true →
  Forall (λ c, kindle_safe c = true) (fr_name rec).
Proof.
  intros Hproc Hag.
  assert (Forall (λ c, kindle_safe c = true) (display_name ag r file)) as Hd
    by (unfold display_name; rewrite Hag; apply Forall_kindle_replace).
  assert (∀ lit : jsstring,
            forallb kindle_safe lit = true → Forall (λ c, kindle_safe c = true) lit)
    as Hlit.
  { intros lit H. apply Forall_forall. intros c Hc.
    rewrite forallb_forall in H. apply H, list_elem_of_In, Hc. }
  revert Hproc. unfold processFile.
  repeat match goal with
         | |- context [if ?b then _ else _] => destruct b
         | |- context [match spawned ?e with _ => _ end] => destruct (spawned e)
         end; intros [= <- <-] || discriminate; cbn [fr_name];
    repeat apply Forall_replace_suffix_ci; try exact Hd; apply Hlit; reflexivity.
Qed.

Lemma mobi_is_not_epub (x : jsstring) :
  List.map fold_lower x = js ".epub" → x ≠ js ".mobi".
Proof. intros H ->. vm_compute in H. discriminate. Qed.

(** X17.  Where the kindlegen output is: after a run that closed with code
    0 or 1 the record points at the staged path with [.epub] replaced by
    [.mobi].  If the staged path ends in [.epub], that is another path,
    which exists afterwards exactly if it existed before or the converter
    wrote it.  If the staged path does not end in [.epub], the record points
    at the staged path itself, which has just been unlinked. *)
Theorem X17_kindlegen_output_path {L : JsLib} (file : upload_file) (ag : jsstring)
    (r : upload_request) (e : file_env) (s : state)
    (code : N) (output : jsstring) (written : gset jsstring) :
  effective_type file e = TYPE_EPUB →
  includes (js "Kindle") ag = true → body_kindlegen r = true →
  spawned e = SpawnClose (Some code) output written → (code = 0 ∨ code = 1)%N →
  ∃ rec,
    (processFile file ag r e s).2 = inr rec ∧
    fr_path rec = replace_suffix_ci (js ".epub") (js ".mobi") (path file) ∧
    (ends_with_ci (js ".epub") (path file) = true →
     fr_path rec ≠ path file ∧
     (fr_path rec ∈ disk (processFile file ag r e s).1 ↔
      fr_path rec ∈ disk s ∨ fr_path rec ∈ written)) ∧
    (ends_with_ci (js ".epub") (path file) = false →
     fr_path rec = path file ∧
     fr_path rec ∉ disk (processFile file ag r e s).1).
Proof.
  intros Htype Hag Hflag Hrun Hcode.
  rewrite (processFile_kindlegen file ag r e s Htype Hag Hflag).
  unfold after_run. rewrite Hrun. cbn [fst snd].
  assert (bool_decide (Some code ≠ Some 0%N) && bool_decide (Some code ≠ Some 1%N)
          = false) as ->.
  { destruct Hcode as [-> | ->]; reflexivity. }
  eexists. split; [reflexivity|]. cbn [fr_path]. split; [reflexivity|].
  split.
  - intros Hends. unfold replace_suffix_ci. rewrite Hends.
    apply ends_with_ci_split in Hends as (Hle & Hsplit & Hsuf).
    set (stem := firstn (length (path file) - length (js ".epub")) (path file)) in *.
    set (ext := skipn (length (path file) - length (js ".epub")) (path file)) in *.
    assert (stem +++ js ".mobi" ≠ path file) as Hne1.
    { rewrite Hsplit. intros Heq. apply app_inv_head in Heq.
      apply (mobi_is_not_epub ext Hsuf). congruence. }
    assert (stem +++ js ".mobi" ≠ stem +++ js ".mobi8") as Hne2.
    { intros Heq. apply app_inv_head in Heq. vm_compute in Heq. discriminate. }
    split; [exact Hne1|]. simpl.
    rewrite !elem_of_difference, elem_of_union, !elem_of_singleton. tauto.
  - intros Hends. unfold replace_suffix_ci. rewrite Hends.
    split; [reflexivity|]. simpl.
    rewrite !elem_of_difference, !elem_of_singleton. tauto.
Qed.

(** ** Splitting and joining *)

Lemma split_on_nonempty (c : N) (s : jsstring) : split_on c s ≠ [].
Proof.
  induction s as [|x s IH]; simpl; [done|].
  destruct (x =? c)%N; [done|]. destruct (split_on c s); done.
Qed.

Lemma split_on_absent (c : N) (s : jsstring) : c ∉ s → split_on c s = [s].
Proof.
  induction s as [|x s IH]; intros Hc; simpl; [done|].
  apply not_elem_of_cons in Hc as [Hx Hs].
  destruct (N.eqb_spec x c) as [->|_]; [done|]. rewrite (IH Hs). reflexivity.
Qed.

Lemma split_on_app (c : N) (a b : jsstring) :
  split_on c (a ++ c :: b) = split_on c a ++ split_on c b.
Proof.
  induction a as [|x a IH]; simpl.
  - rewrite N.eqb_refl. reflexivity.
  - destruct (x =? c)%N; [rewrite IH; reflexivity|].
    rewrite IH. destruct (split_on c a) eqn:E; [|reflexivity].
    destruct (split_on_nonempty c a E).
Qed.

Lemma join_split (c : N) (s : jsstring) : join_with [c] (split_on c s) = s.
Proof.
  induction s as [|x s IH]; simpl; [done|].
  destruct (N.eqb_spec x c) as [->|_].
  - destruct (split_on c s) eqn:E; [destruct (split_on_nonempty c s E)|].
    simpl in *. rewrite IH. reflexivity.
  - destruct (split_on c s) as [|h [|h' t]] eqn:E.
    + destruct (split_on_nonempty c s E).
    + simpl in *. congruence.
    + simpl in *. rewrite <- IH. reflexivity.
Qed.

Lemma split_on_chars (c : N) (s part : jsstring) (x : N) :
  part ∈ split_on c s → x ∈ part → x ∈ s.
Proof.
  revert part. induction s as [|y s IH]; simpl; intros part Hp Hx.
  - apply list_elem_of_singleton in Hp. subst. done.
  - destruct (y =? c)%N.
    + apply elem_of_cons in Hp as [->|Hp]; [by apply elem_of_nil in Hx|].
      right. eauto.
    + destruct (split_on c s) as [|h t] eqn:E.
      * destruct (split_on_nonempty c s E).
      * apply elem_of_cons in Hp as [->|Hp].
        -- apply elem_of_cons in Hx as [->|Hx]; [left|right].
           apply (IH h); [left|done].
        -- right. apply (IH part); [right; done|done].
Qed.

Lemma last_elem_of {A} (l : list A) (d : A) : l ≠ [] → List.last l d ∈ l.
Proof.
  induction l as [|a [|b l] IH]; intros Hne; [done|left|].
  right. apply IH. done.
Qed.

Lemma rev_elem_of {A} (x : A) (l : list A) : x ∈ rev l ↔ x ∈ l.
Proof. rewrite !list_elem_of_In. symmetry. apply in_rev. Qed.

Lemma drop_leading_chars (c : N) (s : jsstring) (x : N) :
  x ∈ drop_leading c s → x ∈ s.
Proof.
  induction s as [|y s IH]; simpl; [done|].
  destruct (y =? c)%N; [right; auto|done].
Qed.

Lemma drop_leading_absent (c : N) (s : jsstring) : c ∉ s → drop_leading c s = s.
Proof.
  destruct s as [|y s]; simpl; [done|]. intros Hc.
  apply not_elem_of_cons in Hc as [Hy _].
  destruct (N.eqb_spec y c); [congruence|done].
Qed.

(** ** doTransliterate *)

(** X18.  [doTransliterate] transliterates what stands before the last dot
    and keeps the extension as it is: [stem.ext] (no dot in [ext]) becomes
    [transliterate stem] followed by [.ext].  A name without a dot has no
    stem: it becomes the transliteration of the empty string followed by a
    dot and the whole name, so it is never transliterated and gains a
    leading dot. *)
Theorem X18_doTransliterate_keeps_extension {L : JsLib} :
  (∀ stem ext : jsstring, 46%N ∉ ext →
     doTransliterate (stem +++ 46%N :: ext) = transliterate stem +++ 46%N :: ext) ∧
  (∀ name : jsstring, 46%N ∉ name →
     doTransliterate name = transliterate [] +++ 46%N :: name).
Proof.
  split.
  - intros stem ext Hext. unfold doTransliterate.
    change (stem +++ 46%N :: ext) with (stem ++ 46%N :: ext).
    rewrite split_on_app, (split_on_absent 46 ext Hext).
    rewrite last_last, removelast_last, join_split. reflexivity.
  - intros name Hname. unfold doTransliterate.
    rewrite (split_on_absent 46 name Hname). reflexivity.
Qed.

(** ** extname *)

Lemma extname_no_dot (p : jsstring) : 46%N ∉ p → extname p = [].
Proof.
  intros Hp. unfold extname.
  set (trimmed := rev (drop_leading 47 (rev p))).
  set (base := List.last (split_on 47 trimmed) []).
  assert (46%N ∉ base) as Hbase.
  { intros Hin. apply Hp.
    assert (46%N ∈ trimmed) as Ht.
    { apply (split_on_chars 47 trimmed base); [|done].
      apply last_elem_of, split_on_nonempty. }
    unfold trimmed in Ht. rewrite rev_elem_of in Ht.
    apply drop_leading_chars in Ht. rewrite rev_elem_of in Ht. done. }
  rewrite (split_on_absent 46 base Hbase). reflexivity.
Qed.

Lemma empty_not_allowed_extension : arr_includes [] allowedExtensions = false.
Proof. vm_compute. reflexivity. Qed.

(** X19.  An upload whose name has no dot is refused by the file filter,
    whatever its declared type and whatever key the request carries (for a
    library whose [toLowerCase] maps the empty string to itself). *)
Theorem X19_no_extension_is_refused {L : JsLib} (s : state) (hdr : jsval)
    (file : upload_file) :
  toLowerCase [] = [] → 46%N ∉ originalname file →
  ∃ message, fileFilter s hdr file = Some message.
Proof.
  intros Hlower Hname. unfold fileFilter.
  destruct (key_of hdr) as [[|c key]|]; [eauto| |eauto].
  case_bool_decide; [eauto|].
  rewrite (extname_no_dot _ Hname), Hlower. cbn [tail].
  rewrite empty_not_allowed_extension, orb_true_r. eauto.
Qed.

(** X20.  A conversion only ever runs for a session whose device the
    landing page sends to the download page: if [processFile] returns a
    converted record for a session created by [agent], then [GET /] with that
    agent serves [static/download.html]. *)
Theorem X20_converting_devices_land_on_download {L : JsLib} (file : upload_file)
    (ag : jsstring) (r : upload_request) (e : file_env) (s s' : state)
    (rec : file_record) :
  processFile file ag r e s = (s', inr rec) → fr_conversion rec ≠ None →
  landing ag = js "static/download.html".
Proof.
  unfold processFile, landing.
  destruct (negb (sniffed_allowed e) && negb (arr_includes (effective_type file e) allowedTypes));
    [discriminate|].
  destruct (includes (js "Kindle") ag), (includes (js "Kobo") ag);
    rewrite ?andb_false_r, ?orb_true_r; cbn [andb orb]; try reflexivity.
  intros [= <- <-]. done.
Qed.

(** ** One session at a time *)

Lemma get_info_keys s key o i : get_info s key = Some (o, i) → keys s !! key = Some o.
Proof.
  unfold get_info. destruct (keys s !! key) as [o0|]; simpl; [|discriminate].
  destruct (heap s !! o0); simpl; [|discriminate]. congruence.
Qed.

Lemma heap_clearTimeout t s : heap (clearTimeout t s) = heap s.
Proof. destruct t; reflexivity. Qed.

Lemma heap_expireKey_other key s o' :
  keys s !! key ≠ Some o' → heap (expireKey key s).2 !! o' = heap s !! o'.
Proof.
  intros Hne. unfold expireKey. cbn [setTimeout].
  destruct (get_info s key) as [[o i]|] eqn:Hget; [|reflexivity].
  apply get_info_keys in Hget. cbn [snd upd_heap heap].
  rewrite lookup_insert_ne by congruence. rewrite heap_clearTimeout. reflexivity.
Qed.

Lemma heap_unlink_fold (l : list file_record) s :
  heap (foldl (λ acc f, unlink (fr_path f) acc) s l) = heap s.
Proof. revert s. induction l as [|f l IH]; intros s; simpl; [done|]. rewrite IH. done. Qed.

Lemma heap_unlink_all l s : heap (unlink_all l s) = heap s.
Proof.
  unfold unlink_all. revert s.
  induction l as [|f l IH]; intros s; simpl; [done|]. rewrite IH. done.
Qed.

Lemma heap_removeKey_other key s o' :
  keys s !! key ≠ Some o' → heap (removeKey key s) !! o' = heap s !! o'.
Proof.
  intros Hne. unfold removeKey.
  destruct (get_info s key) as [[o i]|] eqn:Hget; [|reflexivity].
  apply get_info_keys in Hget. cbn [upd_keys heap].
  destruct (files i) as [|f l].
  - rewrite heap_clearTimeout. reflexivity.
  - cbn [upd_heap heap]. rewrite lookup_insert_ne by congruence.
    rewrite heap_unlink_fold, heap_clearTimeout. reflexivity.
Qed.

Section Isolation.
Context {L : JsLib}.

Lemma heap_upload_item_other o ag r acc fe o' :
  o ≠ o' → heap (upload_item o ag r acc fe).1.1 !! o' = heap acc.1.1 !! o'.
Proof.
  intros Hne. destruct acc as [[s messages] processed], fe as [file e].
  unfold upload_item. destruct (size_bytes file =? 0)%N; [reflexivity|].
  pose proof (processFile_heap file ag r e s) as Hheap.
  destruct (processFile file ag r e s) as [s1 [err|rec]]; simpl in *.
  - congruence.
  - rewrite lookup_alter_ne by done. congruence.
Qed.

Lemma heap_upload_loop_other o ag r staged acc o' :
  o ≠ o' →
  heap (foldl (upload_item o ag r) acc staged).1.1 !! o' = heap acc.1.1 !! o'.
Proof.
  intros Hne. revert acc.
  induction staged as [|fe staged IH]; intros acc; simpl; [done|].
  rewrite IH. apply heap_upload_item_other, Hne.
Qed.

Lemma heap_upload_handler_other r staged s o' :
  (∀ key, getKeyFromRequest r = Some key → keys s !! key ≠ Some o') →
  heap (upload_handler r staged s).1 !! o' = heap s !! o'.
Proof.
  intros Hne. unfold upload_handler.
  destruct (getKeyFromRequest r) as [[|c key]|];
    [cbn [fst]; rewrite heap_unlink_all; done| |cbn [fst]; rewrite heap_unlink_all; done].
  specialize (Hne _ eq_refl).
  destruct (get_info s (c :: key)) as [[o i]|] eqn:Hget;
    [|cbn [fst]; rewrite heap_unlink_all; done].
  pose proof (get_info_keys _ _ _ _ Hget) as Hkey.
  assert (o ≠ o') as Hoo by congruence.
  match goal with
  | |- context [foldl (upload_item o (agent i) r) (?s0, [], 0%nat) staged] =>
      pose proof (heap_upload_loop_other o (agent i) r staged (s0, [], 0%nat) o' Hoo)
        as Hloop;
      destruct (foldl (upload_item o (agent i) r) (s0, [], 0%nat) staged)
        as [[s2 messages] processed];
      assert (heap s0 !! o' = heap s !! o') as Hs0
  end.
  { destruct (trim <$> body_url r) as [u|]; [|apply heap_expireKey_other, Hne].
    destruct (_ && _); [|apply heap_expireKey_other, Hne].
    cbn [push_url upd_heap heap]. rewrite lookup_alter_ne by done.
    apply heap_expireKey_other, Hne. }
  cbn [fst] in Hloop. rewrite Hs0 in Hloop.
  repeat match goal with
         | |- context [match ?x with _ => _ end] => destruct x
         end; exact Hloop.
Qed.

End Isolation.

(** X21.  Work for one session leaves every other session object as it is:
    a status poll, an upload, a file deletion, a download and the expiry of
    a key change no session object but the one registered under the key
    they name; creating a session changes none that existed. *)
Theorem X21_session_isolation {L : JsLib} :
  (∀ key user_agent s o', keys s !! toUpperCase key ≠ Some o' →
     heap (status key user_agent s).1 !! o' = heap s !! o') ∧
  (∀ r multer s o',
     (∀ key, getKeyFromRequest r = Some key → keys s !! key ≠ Some o') →
     heap (upload r multer s).1 !! o' = heap s !! o') ∧
  (∀ key filename s o', keys s !! toUpperCase key ≠ Some o' →
     heap (deleteFile key filename s).1 !! o' = heap s !! o') ∧
  (∀ query_key filename user_agent s o',
     (∀ key, query_key = Some key → keys s !! toUpperCase key ≠ Some o') →
     heap (downloadFile query_key filename user_agent s).1 !! o' = heap s !! o') ∧
  (∀ key s o', keys s !! key ≠ Some o' →
     heap (removeKey key s) !! o' = heap s !! o') ∧
  (∀ user_agent rnd s s' resp o',
     generate user_agent rnd s = Some (s', resp) → (o' < next_loc s)%nat →
     heap s' !! o' = heap s !! o').
Proof.
  split_and!.
  - intros key ag s o' Hne. unfold status.
    destruct (get_info s (toUpperCase key)) as [[o i]|]; [|reflexivity].
    case_bool_decide; [reflexivity|].
    destruct (heap (expireKey (toUpperCase key) s).2 !! o);
      apply heap_expireKey_other, Hne.
  - intros r [m|staged] s o' Hne; [reflexivity|].
    apply heap_upload_handler_other, Hne.
  - intros key filename s o' Hne. unfold deleteFile.
    destruct (get_info s (toUpperCase key)) as [[o i]|] eqn:Hget; [|reflexivity].
    apply get_info_keys in Hget.
    destruct (remove_first filename (files i)) as [[file rest]|]; [|reflexivity].
    cbn [fst upd_heap heap]. rewrite lookup_insert_ne by congruence. reflexivity.
  - intros qk filename ag s o' Hne. unfold downloadFile.
    destruct qk as [k|]; [|reflexivity]. specialize (Hne k eq_refl). cbn [fmap option_fmap option_map].
    destruct (toUpperCase k) as [|c key] eqn:Hk; [reflexivity|].
    destruct (get_info s (c :: key)) as [[o i]|]; [|reflexivity].
    destruct (List.find _ (files i)); [|reflexivity].
    case_bool_decide; [reflexivity|]. apply heap_expireKey_other, Hne.
  - intros key s o'. apply heap_removeKey_other.
  - intros ag rnd s s' resp o' Hgen Hlt.
    destruct (generate_cases ag rnd s) as ([key|] & n & _ & Hg);
      rewrite Hg in Hgen; injection Hgen as Hs _; subst s'; [|reflexivity].
    cbn [generated heap]. rewrite lookup_insert_ne by lia. reflexivity.
Qed.

(** ** The further properties on the demo runs *)

Lemma demo_linked_reachable : @reachable ascii_lib demo_linked.
Proof.
  eapply rtc_r; [apply demo_uploaded_reachable|].
  apply (step_request demo_uploaded 3000 (ReqUpload demo_link (inr [])) _
           (@upload ascii_lib demo_link (inr []) (set_now 3000 demo_uploaded)).2);
    [vm_compute; discriminate|apply none_due_compute; vm_compute; reflexivity|].
  vm_compute. reflexivity.
Qed.

Lemma demo_linked_twice_reachable : @reachable ascii_lib demo_linked_twice.
Proof.
  eapply rtc_r; [apply demo_linked_reachable|].
  apply (step_request demo_linked 4000 (ReqUpload demo_link (inr [])) _
           (@upload ascii_lib demo_link (inr []) (set_now 4000 demo_linked)).2);
    [vm_compute; discriminate|apply none_due_compute; vm_compute; reflexivity|].
  vm_compute. reflexivity.
Qed.

Lemma demo_expired_to_polled : rtc (@step ascii_lib) demo_expired demo_polled.
Proof.
  eapply rtc_l; [|eapply rtc_l; [|apply rtc_refl]].
  - apply (step_request demo_expired 700000 (ReqGenerate demo_kobo demo_draws)
             demo_reissued (RKey demo_key));
      [vm_compute; discriminate|apply none_due_compute; vm_compute; reflexivity|].
    vm_compute. reflexivity.
  - apply (step_request demo_reissued 1200000 (ReqStatus demo_key demo_kobo)
             demo_polled (RStatus 1200000 [] []));
      [vm_compute; discriminate|apply none_due_compute; vm_compute; reflexivity|].
    vm_compute. reflexivity.
Qed.

Lemma demo_expired_empty : ¬ registered 0%nat demo_expired.
Proof.
  intros [key Hkey].
  assert (keys demo_expired = ∅) as Hempty by (vm_compute; reflexivity).
  rewrite Hempty, lookup_empty in Hkey. discriminate.
Qed.

Lemma X2_idle_expiry_witness :
  keys demo_polled !! demo_key = Some 1%nat ∧
  heap demo_polled !! 1%nat = Some demo_info ∧
  now demo_polled ≤ alive demo_info + expireDelay * 1000 ∧
  ∃ id, timer demo_info = Some id ∧
        timers demo_polled !! id = Some (1800000, CbRemoveKey demo_key) ∧
        keys (fire id demo_polled) !! demo_key = None.
Proof.
  assert (keys demo_polled !! demo_key = Some 1%nat) as Hk
    by (vm_compute; reflexivity).
  assert (heap demo_polled !! 1%nat = Some demo_info) as Hi
    by (vm_compute; reflexivity).
  destruct (@X2_idle_expiry ascii_lib demo_polled demo_key 1%nat demo_info
              demo_polled_reachable Hk Hi) as (_ & _ & Hnow & _ & id & Ht & Hid & Hgone).
  split; [exact Hk|]. split; [exact Hi|]. split; [exact Hnow|].
  exists id. split; [exact Ht|]. split; [exact Hid|exact Hgone].
Defined.

Lemma X3_urls_without_duplicates_witness :
  ∃ i, heap demo_linked_twice !! 0%nat = Some i ∧
       urls i = [js "https://example.org/a"] ∧ NoDup (urls i).
Proof.
  eexists. split; [vm_compute; reflexivity|]. split; [reflexivity|].
  eapply (@X3_urls_without_duplicates ascii_lib demo_linked_twice 0%nat);
    [exact demo_linked_twice_reachable|vm_compute; reflexivity].
Defined.

Lemma X4_two_timers_per_session_witness :
  keys demo_uploaded !! demo_key = Some 0%nat ∧
  heap demo_uploaded !! 0%nat = Some demo_info_uploaded ∧
  ∃ t h,
    timer demo_info_uploaded = Some t ∧ t ≠ h ∧
    timers demo_uploaded !! t = Some (602000, CbRemoveKey demo_key) ∧
    timers demo_uploaded !! h = Some (3600000, CbHardCap demo_key 0%nat).
Proof.
  assert (keys demo_uploaded !! demo_key = Some 0%nat) as Hk
    by (vm_compute; reflexivity).
  assert (heap demo_uploaded !! 0%nat = Some demo_info_uploaded) as Hi
    by (vm_compute; reflexivity).
  destruct (@X4_two_timers_per_session ascii_lib demo_uploaded demo_key 0%nat
              demo_info_uploaded demo_uploaded_reachable Hk Hi)
    as (t & h & Ht & Hne & Hrenew & Hcap & _).
  split; [exact Hk|]. split; [exact Hi|].
  exists t, h. split; [exact Ht|]. split; [exact Hne|]. split; [exact Hrenew|exact Hcap].
Defined.

Lemma X6_no_resurrection_witness :
  (0 < next_loc demo_expired)%nat ∧
  keys demo_polled !! demo_key = Some 1%nat ∧
  ¬ registered 0%nat demo_polled.
Proof.
  assert (0 < next_loc demo_expired)%nat as Hlt by (vm_compute; lia).
  split; [exact Hlt|]. split; [vm_compute; reflexivity|].
  exact (@X6_no_resurrection ascii_lib demo_expired demo_polled 0%nat
           demo_expired_to_polled Hlt demo_expired_empty).
Defined.


Lemma X12_upload_response_witness :
  @getKeyFromRequest ascii_lib demo_request = Some demo_key ∧
  keys demo_staged !! demo_key = Some 0%nat ∧
  heap demo_staged !! 0%nat = Some demo_info_created ∧
  (@upload_handler ascii_lib demo_request [(demo_empty, demo_empty_env)]
     demo_staged).2 = RFlash 400 (js "No file or url selected") ∧
  ∃ message,
    (@upload_handler ascii_lib demo_request [(demo_file, demo_env)]
       demo_staged).2 = RFlash 200 message.
Proof.
  assert (@getKeyFromRequest ascii_lib demo_request = Some demo_key) as Hreq
    by (vm_compute; reflexivity).
  assert (demo_key ≠ []) as Hne by discriminate.
  assert (keys demo_staged !! demo_key = Some 0%nat) as Hk
    by (vm_compute; reflexivity).
  assert (heap demo_staged !! 0%nat = Some demo_info_created) as Hi
    by (vm_compute; reflexivity).
  split; [exact Hreq|]. split; [exact Hk|]. split; [exact Hi|]. split.
  - destruct (@X12_upload_response ascii_lib demo_request
                [(demo_empty, demo_empty_env)] demo_staged demo_key 0%nat
                demo_info_created Hreq Hne Hk Hi) as (_ & Hnone & _).
    apply Hnone; [reflexivity|left; reflexivity].
  - destruct (@X12_upload_response ascii_lib demo_request
                [(demo_file, demo_env)] demo_staged demo_key 0%nat
                demo_info_created Hreq Hne Hk Hi) as (_ & _ & Hsome).
    apply Hsome. left. discriminate.
Defined.

Lemma X14_conversion_dispatch_witness :
  (@processFile ascii_lib demo_file demo_kindle demo_convert demo_env
     demo_staged).2 = inr demo_converted ∧
  fr_conversion demo_converted = Some Kindlegen ∧
  fr_uploaded demo_converted = now demo_staged.
Proof.
  assert (@processFile ascii_lib demo_file demo_kindle demo_convert demo_env
            demo_staged =
          ((@processFile ascii_lib demo_file demo_kindle demo_convert demo_env
              demo_staged).1, inr demo_converted)) as Hproc
    by (vm_compute; reflexivity).
  destruct (@X14_conversion_dispatch ascii_lib demo_file demo_kindle demo_convert
              demo_env demo_staged _ demo_converted Hproc) as (Hconv & Htime & _).
  split; [rewrite Hproc; reflexivity|]. split; [exact Hconv|exact Htime].
Defined.

Lemma X15_declared_type_is_trusted_witness :
  @fileFilter ascii_lib demo_staged (JString (js "2222")) demo_file = None ∧
  mimetype demo_file ≠ OCTET_STREAM ∧
  type_allowed demo_file demo_image_env = true.
Proof.
  assert (@fileFilter ascii_lib demo_staged (JString (js "2222")) demo_file = None)
    as Hfilter by (vm_compute; reflexivity).
  assert (mimetype demo_file ≠ OCTET_STREAM) as Hoct by (vm_compute; discriminate).
  destruct (@X15_declared_type_is_trusted ascii_lib demo_staged
              (JString (js "2222")) demo_file demo_image_env Hfilter Hoct)
    as (_ & Hallowed & _).
  split; [exact Hfilter|]. split; [exact Hoct|exact Hallowed].
Defined.

Lemma X16_kindle_names_are_safe_witness :
  includes (js "Kindle") demo_kindle = true ∧
  Forall (λ c, kindle_safe c = true) (fr_name demo_converted).
Proof.
  assert (@processFile ascii_lib demo_file demo_kindle demo_convert demo_env
            demo_staged =
          ((@processFile ascii_lib demo_file demo_kindle demo_convert demo_env
              demo_staged).1, inr demo_converted)) as Hproc
    by (vm_compute; reflexivity).
  assert (includes (js "Kindle") demo_kindle = true) as Hag
    by (vm_compute; reflexivity).
  split; [exact Hag|].
  exact (@X16_kindle_names_are_safe ascii_lib demo_file demo_kindle demo_convert
           demo_env demo_staged _ demo_converted Hproc Hag).
Defined.

Lemma X17_kindlegen_output_path_witness :
  ends_with_ci (js ".epub") (path demo_file) = true ∧
  ∃ rec,
    (@processFile ascii_lib demo_file demo_kindle demo_convert demo_env
       demo_staged).2 = inr rec ∧
    fr_path rec = js "uploads/files-1.mobi" ∧
    fr_path rec ∈ disk (@processFile ascii_lib demo_file demo_kindle demo_convert
                          demo_env demo_staged).1.
Proof.
  assert (ends_with_ci (js ".epub") (path demo_file) = true) as Hends
    by (vm_compute; reflexivity).
  split; [exact Hends|].
  destruct (@X17_kindlegen_output_path ascii_lib demo_file demo_kindle demo_convert
              demo_env demo_staged 1%N (js "Warning(prcgen):W14001")
              {[ js "uploads/files-1.mobi"; js "uploads/files-1.mobi8" ]})
    as (rec & Hrec & Hpath & Hepub & _);
    [vm_compute; reflexivity|vm_compute; reflexivity|reflexivity|reflexivity
    |right; reflexivity|].
  exists rec. split; [exact Hrec|].
  assert (fr_path rec = js "uploads/files-1.mobi") as Hout
    by (rewrite Hpath; vm_compute; reflexivity).
  split; [exact Hout|].
  destruct (Hepub Hends) as [_ Hdisk]. apply Hdisk. right.
  rewrite Hout. apply elem_of_union. left. apply elem_of_singleton. reflexivity.
Defined.

Lemma X19_no_extension_is_refused_witness :
  ∃ message,
    @fileFilter ascii_lib demo_staged (JString (js "2222")) demo_bare = Some message.
Proof.
  apply (@X19_no_extension_is_refused ascii_lib); [reflexivity|].
  intros Hin. apply list_elem_of_In in Hin. vm_compute in Hin. intuition discriminate.
Defined.

Lemma X20_converting_devices_land_on_download_witness :
  @landing ascii_lib demo_kindle = js "static/download.html".
Proof.
  assert (@processFile ascii_lib demo_file demo_kindle demo_convert demo_env
            demo_staged =
          ((@processFile ascii_lib demo_file demo_kindle demo_convert demo_env
              demo_staged).1, inr demo_converted)) as Hproc
    by (vm_compute; reflexivity).
  apply (@X20_converting_devices_land_on_download ascii_lib demo_file demo_kindle
           demo_convert demo_env demo_staged _ demo_converted Hproc).
  discriminate.
Defined.
